(** * Scalers: standardizers of named datasets

    A shallow embedding of [Scalers.py]: the abstract class
    [AbsStandardizer] and its four subclasses [MinMaxStandardizer],
    [NormalStandardizer], [RobustStandardizer] and [NoneStandardizer].

    - Numbers.  An array entry is of a floating dtype or of the integer
      dtype [int64].  A float is an exact rational or one of the IEEE
      special values (the two infinities and NaN), so that the unguarded
      division by a zero scale yields a non-finite entry, as in the source,
      and never an exception.  An integer is kept in its dtype by the
      operations that NumPy keeps there (minimum, maximum, and the sum,
      difference and product of two integers, which wrap around at 64
      bits) and converted by the others (true division, mean, and any
      operation with a float).  The rounding and the overflow of floats and
      the sign of zero are not modelled (a zero is the positive zero), and
      the square root used by [ndarray.std] is a parameter, of which the
      theorems assume that it is exact on the squares.
    - Arrays.  A dataset is a two-dimensional array, a parameter a
      one-dimensional array; arithmetic between them broadcasts as NumPy
      does and raises [ValueError] when the shapes do not agree.
    - Exceptions are the [Err] results of an error monad, sequenced in the
      order in which Python evaluates the source expressions.
    - Dictionaries are finite maps keyed by strings; the keyword arguments
      of a constructor are the list of their items, in call order, whose
      keys Python keeps distinct. *)

From Stdlib Require Import QArith Qcanon Qround.
From stdpp Require Import numbers list sorting strings fin_maps gmap.

Local Open Scope Qc_scope.

(** ** Numbers *)

(** An entry of an array: of a floating dtype (a rational or one of the
    special values) or of the integer dtype [int64]. *)
Inductive fnum : Type :=
  | Fin (q : Qc)
  | PInf
  | NInf
  | NaN
  | Int (z : Z).

Global Instance fnum_eq_dec : EqDecision fnum.
Proof. solve_decision. Defined.

Global Instance fnum_inhabited : Inhabited fnum := populate NaN.

(** Two's complement wrap-around of [int64] arithmetic. *)
Definition wrap64 (z : Z) : Z :=
  ((z + 2 ^ 63) mod 2 ^ 64 - 2 ^ 63)%Z.

(** The conversion of an integer entry to the floating dtype. *)
Definition to_float (x : fnum) : fnum :=
  match x with
  | Int z => Fin (Qc_of_Z z)
  | _ => x
  end.

(** A finite entry of a floating dtype. *)
Definition is_finite (x : fnum) : Prop :=
  match x with Fin _ => True | _ => False end.

Global Instance is_finite_dec x : Decision (is_finite x).
Proof. destruct x; simpl; apply _. Defined.

Definition fneg (x : fnum) : fnum :=
  match x with
  | Fin q => Fin (- q)
  | PInf => NInf
  | NInf => PInf
  | NaN => NaN
  | Int z => Int (wrap64 (- z))
  end.

(** Addition: two integers add within [int64]; an integer beside a float
    is converted first. *)
Definition fadd (x y : fnum) : fnum :=
  match x, y with
  | Int a, Int b => Int (wrap64 (a + b))
  | _, _ =>
      match to_float x, to_float y with
      | NaN, _ | _, NaN => NaN
      | Fin a, Fin b => Fin (a + b)
      | PInf, NInf | NInf, PInf => NaN
      | PInf, _ | _, PInf => PInf
      | NInf, _ | _, NInf => NInf
      | Int _, _ | _, Int _ => NaN
      end
  end.

Definition fsub (x y : fnum) : fnum :=
  match x, y with
  | Int a, Int b => Int (wrap64 (a - b))
  | _, _ => fadd (to_float x) (fneg (to_float y))
  end.

(** An infinity (positive when [pos]) times the rational [q]: an infinity
    of the product of the signs, NaN when [q] is zero. *)
Definition inf_times (pos : bool) (q : Qc) : fnum :=
  match q ?= 0 with
  | Eq => NaN
  | Gt => if pos then PInf else NInf
  | Lt => if pos then NInf else PInf
  end.

Definition fmul (x y : fnum) : fnum :=
  match x, y with
  | Int a, Int b => Int (wrap64 (a * b))
  | _, _ =>
      match to_float x, to_float y with
      | NaN, _ | _, NaN => NaN
      | Fin a, Fin b => Fin (a * b)
      | PInf, Fin b => inf_times true b
      | NInf, Fin b => inf_times false b
      | Fin a, PInf => inf_times true a
      | Fin a, NInf => inf_times false a
      | PInf, PInf | NInf, NInf => PInf
      | PInf, NInf | NInf, PInf => NInf
      | Int _, _ | _, Int _ => NaN
      end
  end.

(** True division, always in the floating dtype.  A finite value over
    zero is an infinity of the sign of the numerator, zero over zero is
    NaN; no exception is raised. *)
Definition fdiv (x y : fnum) : fnum :=
  match to_float x, to_float y with
  | NaN, _ | _, NaN => NaN
  | Fin a, Fin b =>
      if decide (b = 0) then inf_times true a else Fin (a / b)
  | Fin _, (PInf | NInf) => Fin 0
  | PInf, Fin b => if decide (b < 0) then NInf else PInf
  | NInf, Fin b => if decide (b < 0) then PInf else NInf
  | (PInf | NInf), (PInf | NInf) => NaN
  | Int _, _ | _, Int _ => NaN
  end.

Global Arguments fdiv !_ !_ /.

(** The order NumPy sorts by: NaN after everything else. *)
Definition fleb (x y : fnum) : bool :=
  match to_float x, to_float y with
  | _, NaN => true
  | NaN, _ => false
  | NInf, _ => true
  | _, NInf => false
  | _, PInf => true
  | PInf, _ => false
  | Fin a, Fin b => bool_decide (a <= b)
  | Int _, _ | _, Int _ => false
  end.

Global Arguments fleb !_ !_ /.

(** [np.minimum] and [np.maximum]: NaN wins over any number; the result
    is one of the two entries, in its dtype. *)
Definition fminimum (x y : fnum) : fnum :=
  match x, y with
  | NaN, _ | _, NaN => NaN
  | _, _ => if fleb x y then x else y
  end.

Definition fmaximum (x y : fnum) : fnum :=
  match x, y with
  | NaN, _ | _, NaN => NaN
  | _, _ => if fleb x y then y else x
  end.

(** [np.sqrt] on the extended numbers; the root of a non-negative rational
    is whatever the arithmetic [sqrt_fn] returns for it. *)
Definition fsqrt (sqrt_fn : Qc -> Qc) (x : fnum) : fnum :=
  match to_float x with
  | Fin q => if decide (q < 0) then NaN else Fin (sqrt_fn q)
  | PInf => PInf
  | NInf | NaN | Int _ => NaN
  end.

Global Arguments fsqrt _ !_ /.

Definition of_nat (n : nat) : fnum := Fin (Qc_of_Z (Z.of_nat n)).

(** ** Exceptions *)

Inductive exn : Type :=
  | KeyError (key : string)
  | ValueError
  | IndexError.

Global Instance exn_eq_dec : EqDecision exn.
Proof. solve_decision. Defined.

Inductive result (A : Type) : Type :=
  | Ok (a : A)
  | Err (e : exn).
Arguments Ok {A} a.
Arguments Err {A} e.

Global Instance result_ret : MRet result := fun A a => Ok a.
Global Instance result_bind : MBind result := fun A B f r =>
  match r with
  | Ok a => f a
  | Err e => Err e
  end.
Global Instance result_fmap : FMap result := fun A B f r =>
  match r with
  | Ok a => Ok (f a)
  | Err e => Err e
  end.

Global Instance result_eq_dec {A} `{EqDecision A} : EqDecision (result A).
Proof. solve_decision. Defined.

Definition raises {A} (r : result A) : Prop :=
  match r with Ok _ => False | Err _ => True end.

(** ** Arrays *)

(** A one-dimensional array. *)
Abbreviation vec := (list fnum).

(** A two-dimensional array of shape [(length rows, ncols)]; the column
    count is kept beside the rows so that an array without rows still has
    a shape. *)
Record ndarray : Type := mk_ndarray {
  ncols : nat;
  rows : list vec
}.

Global Instance ndarray_eq_dec : EqDecision ndarray.
Proof. solve_decision. Defined.

Definition wf (a : ndarray) : Prop :=
  Forall (fun r => length r = ncols a) (rows a).

Definition vec_finite (v : vec) : Prop := Forall is_finite v.

(** A finite entry of a floating dtype that is not zero: a scale that can
    be divided by. *)
Definition is_nonzero (x : fnum) : Prop :=
  match x with Fin q => q <> 0 | _ => False end.

Definition finite (a : ndarray) : Prop := Forall vec_finite (rows a).

Global Instance is_nonzero_dec x : Decision (is_nonzero x).
Proof. destruct x; simpl; apply _. Defined.

Global Instance wf_dec a : Decision (wf a).
Proof. unfold wf. apply _. Defined.

Global Instance finite_dec a : Decision (finite a).
Proof. unfold finite, vec_finite. apply _. Defined.

Definition get (a : ndarray) (i j : nat) : option fnum :=
  rows a !! i ≫= fun r => r !! j.

(** Broadcasting of two trailing dimensions: equal, or one of them 1. *)
Definition broadcast_len (m n : nat) : result nat :=
  if decide (m = n) then Ok m
  else if decide (m = 1%nat) then Ok n
  else if decide (n = 1%nat) then Ok m
  else Err ValueError.

Definition stretch (n : nat) (v : vec) : vec :=
  match v with
  | [x] => replicate n x
  | _ => v
  end.

(** A binary ufunc on two one-dimensional arrays. *)
Definition bvec (op : fnum -> fnum -> fnum) (u v : vec) : result vec :=
  n ← broadcast_len (length u) (length v);
  Ok (zip_with op (stretch n u) (stretch n v)).

(** A binary ufunc on a two-dimensional and a one-dimensional array: the
    vector is applied to every row. *)
Definition barr (op : fnum -> fnum -> fnum) (a : ndarray) (v : vec)
  : result ndarray :=
  n ← broadcast_len (ncols a) (length v);
  Ok {| ncols := n;
        rows := (fun r => zip_with op (stretch n r) (stretch n v)) <$> rows a |}.

(** ** Reductions along axis 0 *)

Definition column (j : nat) (a : ndarray) : vec :=
  omap (fun r => r !! j) (rows a).

Definition columns (a : ndarray) : list vec :=
  (fun j => column j a) <$> seq 0 (ncols a).

(** [ndarray.min(axis=0)] and [ndarray.max(axis=0)]: no identity, so a
    reduction over an axis of length zero raises. *)
Definition reduce1 (f : fnum -> fnum -> fnum) (c : vec) : fnum :=
  match c with
  | [] => NaN
  | x :: xs => foldl f x xs
  end.

Definition amin (a : ndarray) : result vec :=
  match rows a with
  | [] => Err ValueError
  | _ => Ok (reduce1 fminimum <$> columns a)
  end.

Definition amax (a : ndarray) : result vec :=
  match rows a with
  | [] => Err ValueError
  | _ => Ok (reduce1 fmaximum <$> columns a)
  end.

Definition fsum (c : vec) : fnum := foldl fadd (Fin 0) c.

(** [ndarray.mean(axis=0)]: the sum over the count; NaN for no rows. *)
Definition mean1 (c : vec) : fnum := fdiv (fsum c) (of_nat (length c)).

Definition amean (a : ndarray) : vec := mean1 <$> columns a.

(** [ndarray.std(axis=0)] with the default [ddof = 0]: the root of the mean
    of the squared deviations from the mean. *)
Definition var1 (c : vec) : fnum :=
  let m := mean1 c in
  let d := (fun x => fsub x m) <$> c in
  fdiv (fsum ((fun x => fmul x x) <$> d)) (of_nat (length c)).

Definition std1 (sqrt_fn : Qc -> Qc) (c : vec) : fnum := fsqrt sqrt_fn (var1 c).

Definition astd (sqrt_fn : Qc -> Qc) (a : ndarray) : vec :=
  std1 sqrt_fn <$> columns a.

(** Sorting, as [np.sort] orders floats. *)
Definition fle (x y : fnum) : Prop := fleb x y.

Global Instance fle_dec : RelDecision fle.
Proof. intros x y. unfold fle. apply _. Defined.

Definition sort (c : vec) : vec := merge_sort fle c.

Definition has_nan (c : vec) : bool := bool_decide (NaN ∈ c).

(** NumPy's [_lerp]: the second form is taken from one half on. *)
Definition lerp (a b : fnum) (t : Qc) : fnum :=
  let diff_b_a := fsub b a in
  if decide (1 / 2 <= t)
  then fsub b (fmul diff_b_a (Fin (1 - t)))
  else fadd a (fmul diff_b_a (Fin t)).

(** [np.quantile(c, q)] with the default method (linear), for [q] below
    one as the source calls it: the value at the virtual index
    [(n - 1) * q] of the sorted column, interpolated between its two
    neighbours; NaN when the column holds a NaN. *)
Definition quantile1 (q : Qc) (c : vec) : fnum :=
  let s := sort c in
  let n := length c in
  let virtual := Qc_of_Z (Z.of_nat (n - 1)) * q in
  let previous := Z.to_nat (Qfloor virtual) in
  let next := Nat.min (previous + 1) (n - 1) in
  let gamma := virtual - Qc_of_Z (Z.of_nat previous) in
  if has_nan c then NaN
  else lerp (s !!! previous) (s !!! next) gamma.

(** On an axis of length zero [np.quantile] raises. *)
Definition aquantile (q : Qc) (a : ndarray) : result vec :=
  match rows a with
  | [] => Err IndexError
  | _ => Ok (quantile1 q <$> columns a)
  end.

(** [np.median]: the mean of the middle element, or of the two middle
    elements, of the sorted column. *)
Definition median1 (c : vec) : fnum :=
  let s := sort c in
  let n := length c in
  if has_nan c then NaN
  else if Nat.even n
       then mean1 (take 2 (drop (n / 2 - 1) s))
       else mean1 (take 1 (drop (n / 2) s)).

Definition amedian (a : ndarray) : vec := median1 <$> columns a.

(** ** Python values

    What a variadic method receives and returns: arrays, strings and
    tuples of values. *)

#[local] Unset Elimination Schemes.
Inductive pyval : Type :=
  | PArr (a : ndarray)
  | PStr (s : string)
  | PTuple (items : list pyval).
#[local] Set Elimination Schemes.

(** ** The abstract base class *)

Local Open Scope string_scope.

Abbreviation params := (gmap string vec).

(** The attributes of an instance.  [_params] is created by
    [init_normalization]; before that it is modelled as empty. *)
Record Standardizer : Type := mk_Standardizer {
  data_to_stadnardize : list (string * ndarray);
  data : gmap string ndarray;
  _params : gmap string params
}.

Definition set_data (self : Standardizer) (d : gmap string ndarray) :=
  {| data_to_stadnardize := data_to_stadnardize self;
     data := d;
     _params := _params self |}.

Definition set_params (self : Standardizer) (p : gmap string params) :=
  {| data_to_stadnardize := data_to_stadnardize self;
     data := data self;
     _params := p |}.

(** Subscription of a dictionary: a missing key raises [KeyError]. *)
Definition subscript {V} (d : gmap string V) (key : string) : result V :=
  match d !! key with
  | Some v => Ok v
  | None => Err (KeyError key)
  end.

Module AbsStandardizer.

(** [__init__(self, **data_to_stadnardize)]; the abstract
    [init_normalization] is the one of the class instantiated. *)
Definition __init__
    (init_normalization : Standardizer -> result Standardizer)
    (kwargs : list (string * ndarray)) : result Standardizer :=
  init_normalization
    {| data_to_stadnardize := kwargs; data := ∅; _params := ∅ |}.

Definition __getitem__ (self : Standardizer) (key : string)
  : result ndarray :=
  subscript (data self) key.

End AbsStandardizer.

(** The loop shared in shape by the three fitting classes: every entry is
    fitted and its parameters and normalized array are stored under its
    key. *)
Fixpoint fit_loop (fit : ndarray -> result (params * ndarray))
    (items : list (string * ndarray)) (self : Standardizer)
  : result Standardizer :=
  match items with
  | [] => Ok self
  | (key, value) :: items =>
      pd ← fit value;
      fit_loop fit items
        {| data_to_stadnardize := data_to_stadnardize self;
           data := <[key := pd.2]> (data self);
           _params := <[key := pd.1]> (_params self) |}
  end.

Module MinMaxStandardizer.

Fixpoint loop (items : list (string * ndarray)) (self : Standardizer)
  : result Standardizer :=
  match items with
  | [] => Ok self
  | (key, value) :: items =>
      data_min ← amin value;
      data_max ← amax value;
      let self :=
        set_params self
          (<[key := {["min" := data_min; "max" := data_max]}]> (_params self)) in
      num ← barr fsub value data_min;
      den ← bvec fsub data_max data_min;
      normalized ← barr fdiv num den;
      loop items (set_data self (<[key := normalized]> (data self)))
  end.

Definition init_normalization (self : Standardizer) : result Standardizer :=
  loop (data_to_stadnardize self) (set_params self ∅).

Definition __init__ := AbsStandardizer.__init__ init_normalization.

(** What one pass of the loop stores for an entry. *)
Definition fit (value : ndarray) : result (params * ndarray) :=
  data_min ← amin value;
  data_max ← amax value;
  num ← barr fsub value data_min;
  den ← bvec fsub data_max data_min;
  normalized ← barr fdiv num den;
  Ok ({["min" := data_min; "max" := data_max]}, normalized).

Definition normalize (self : Standardizer) (data : ndarray) (key : string)
  : result ndarray :=
  p ← subscript (_params self) key;
  p_min ← subscript p "min";
  num ← barr fsub data p_min;
  p ← subscript (_params self) key;
  p_max ← subscript p "max";
  p ← subscript (_params self) key;
  p_min ← subscript p "min";
  den ← bvec fsub p_max p_min;
  barr fdiv num den.

Definition denormalize (self : Standardizer) (data : ndarray) (key : string)
  : result ndarray :=
  p ← subscript (_params self) key;
  p_max ← subscript p "max";
  p ← subscript (_params self) key;
  p_min ← subscript p "min";
  scale ← bvec fsub p_max p_min;
  scaled ← barr fmul data scale;
  p ← subscript (_params self) key;
  p_min ← subscript p "min";
  barr fadd scaled p_min.

End MinMaxStandardizer.

Module NormalStandardizer.
Section WithSqrt.

(** The square root of the arithmetic ([np.sqrt] inside [ndarray.std]). *)
Variable sqrt_fn : Qc -> Qc.

Fixpoint loop (items : list (string * ndarray)) (self : Standardizer)
  : result Standardizer :=
  match items with
  | [] => Ok self
  | (key, value) :: items =>
      let data_mean := amean value in
      let data_std := astd sqrt_fn value in
      let self :=
        set_params self
          (<[key := {["mean" := data_mean; "std" := data_std]}]> (_params self)) in
      num ← barr fsub value data_mean;
      normalized ← barr fdiv num data_std;
      loop items (set_data self (<[key := normalized]> (data self)))
  end.

Definition init_normalization (self : Standardizer) : result Standardizer :=
  loop (data_to_stadnardize self) (set_params self ∅).

Definition __init__ := AbsStandardizer.__init__ init_normalization.

(** What one pass of the loop stores for an entry. *)
Definition fit (value : ndarray) : result (params * ndarray) :=
  let data_mean := amean value in
  let data_std := astd sqrt_fn value in
  num ← barr fsub value data_mean;
  normalized ← barr fdiv num data_std;
  Ok ({["mean" := data_mean; "std" := data_std]}, normalized).

End WithSqrt.

Definition normalize (self : Standardizer) (data : ndarray) (key : string)
  : result ndarray :=
  p ← subscript (_params self) key;
  p_mean ← subscript p "mean";
  num ← barr fsub data p_mean;
  p ← subscript (_params self) key;
  p_std ← subscript p "std";
  barr fdiv num p_std.

Definition denormalize (self : Standardizer) (data : ndarray) (key : string)
  : result ndarray :=
  p ← subscript (_params self) key;
  p_std ← subscript p "std";
  scaled ← barr fmul data p_std;
  p ← subscript (_params self) key;
  p_mean ← subscript p "mean";
  barr fadd scaled p_mean.

End NormalStandardizer.

Module RobustStandardizer.

Definition quarter : Qc := Q2Qc (1 # 4).
Definition three_quarters : Qc := Q2Qc (3 # 4).

Fixpoint loop (items : list (string * ndarray)) (self : Standardizer)
  : result Standardizer :=
  match items with
  | [] => Ok self
  | (key, value) :: items =>
      data_q1 ← aquantile quarter value;
      data_q3 ← aquantile three_quarters value;
      let data_median := amedian value in
      let self :=
        set_params self
          (<[key := {["q1" := data_q1; "median" := data_median;
                      "q3" := data_q3]}]> (_params self)) in
      num ← barr fsub value data_median;
      den ← bvec fsub data_q3 data_q1;
      normalized ← barr fdiv num den;
      loop items (set_data self (<[key := normalized]> (data self)))
  end.

Definition init_normalization (self : Standardizer) : result Standardizer :=
  loop (data_to_stadnardize self) (set_params self ∅).

Definition __init__ := AbsStandardizer.__init__ init_normalization.

(** What one pass of the loop stores for an entry. *)
Definition fit (value : ndarray) : result (params * ndarray) :=
  data_q1 ← aquantile quarter value;
  data_q3 ← aquantile three_quarters value;
  let data_median := amedian value in
  num ← barr fsub value data_median;
  den ← bvec fsub data_q3 data_q1;
  normalized ← barr fdiv num den;
  Ok ({["q1" := data_q1; "median" := data_median; "q3" := data_q3]},
      normalized).

Definition normalize (self : Standardizer) (data : ndarray) (key : string)
  : result ndarray :=
  p ← subscript (_params self) key;
  p_median ← subscript p "median";
  num ← barr fsub data p_median;
  p ← subscript (_params self) key;
  p_q3 ← subscript p "q3";
  p ← subscript (_params self) key;
  p_q1 ← subscript p "q1";
  den ← bvec fsub p_q3 p_q1;
  barr fdiv num den.

Definition denormalize (self : Standardizer) (data : ndarray) (key : string)
  : result ndarray :=
  p ← subscript (_params self) key;
  p_q3 ← subscript p "q3";
  p ← subscript (_params self) key;
  p_q1 ← subscript p "q1";
  scale ← bvec fsub p_q3 p_q1;
  scaled ← barr fmul data scale;
  p ← subscript (_params self) key;
  p_median ← subscript p "median";
  barr fadd scaled p_median.

End RobustStandardizer.

Module NoneStandardizer.

Definition init_normalization (self : Standardizer) : result Standardizer :=
  Ok (set_params self ∅).

Definition __init__ := AbsStandardizer.__init__ init_normalization.

(** [normalize(self, *args)] returns the tuple of its arguments. *)
Definition normalize (self : Standardizer) (args : list pyval) : pyval :=
  PTuple args.

Definition denormalize (self : Standardizer) (args : list pyval) : pyval :=
  PTuple args.

End NoneStandardizer.

(** ** Calls through the common interface

    The class of an instance selects the method that runs.  A call
    [V.normalize(x, k)] hands an array and a key to the method of class [V];
    for [NoneStandardizer] these are the two elements of [*args]. *)

Inductive variant : Type :=
  | MinMax
  | Normal
  | Robust
  | Identity.

Global Instance variant_eq_dec : EqDecision variant.
Proof. solve_decision. Defined.

Definition construct (sqrt_fn : Qc -> Qc) (V : variant)
    (kwargs : list (string * ndarray)) : result Standardizer :=
  match V with
  | MinMax => MinMaxStandardizer.__init__ kwargs
  | Normal => NormalStandardizer.__init__ sqrt_fn kwargs
  | Robust => RobustStandardizer.__init__ kwargs
  | Identity => NoneStandardizer.__init__ kwargs
  end.

(** The fitting classes and what each stores per entry. *)
Definition fit_of (sqrt_fn : Qc -> Qc) (V : variant)
  : option (ndarray -> result (params * ndarray)) :=
  match V with
  | MinMax => Some MinMaxStandardizer.fit
  | Normal => Some (NormalStandardizer.fit sqrt_fn)
  | Robust => Some RobustStandardizer.fit
  | Identity => None
  end.

(** The instance as [__init__] hands it to [init_normalization]. *)
Definition fresh (kwargs : list (string * ndarray)) : Standardizer :=
  {| data_to_stadnardize := kwargs; data := ∅; _params := ∅ |}.

(** [self[key]]: [__getitem__] is inherited unchanged by every class. *)
Definition lookup (V : variant) (self : Standardizer) (key : string)
  : result pyval :=
  PArr <$> AbsStandardizer.__getitem__ self key.

Definition normalize (V : variant) (self : Standardizer)
    (x : ndarray) (key : string) : result pyval :=
  match V with
  | MinMax => PArr <$> MinMaxStandardizer.normalize self x key
  | Normal => PArr <$> NormalStandardizer.normalize self x key
  | Robust => PArr <$> RobustStandardizer.normalize self x key
  | Identity => Ok (NoneStandardizer.normalize self [PArr x; PStr key])
  end.

Definition denormalize (V : variant) (self : Standardizer)
    (y : ndarray) (key : string) : result pyval :=
  match V with
  | MinMax => PArr <$> MinMaxStandardizer.denormalize self y key
  | Normal => PArr <$> NormalStandardizer.denormalize self y key
  | Robust => PArr <$> RobustStandardizer.denormalize self y key
  | Identity => Ok (NoneStandardizer.denormalize self [PArr y; PStr key])
  end.

(** [V.denormalize(V.normalize(x, key), key)]. *)
Definition roundtrip (V : variant) (self : Standardizer)
    (x : ndarray) (key : string) : result pyval :=
  match V with
  | MinMax =>
      y ← MinMaxStandardizer.normalize self x key;
      PArr <$> MinMaxStandardizer.denormalize self y key
  | Normal =>
      y ← NormalStandardizer.normalize self x key;
      PArr <$> NormalStandardizer.denormalize self y key
  | Robust =>
      y ← RobustStandardizer.normalize self x key;
      PArr <$> RobustStandardizer.denormalize self y key
  | Identity =>
      let y := NoneStandardizer.normalize self [PArr x; PStr key] in
      Ok (NoneStandardizer.denormalize self [y; PStr key])
  end.

(** The vector a class divides by; [NoneStandardizer] keeps no
    parameters. *)
Definition scale (V : variant) (self : Standardizer) (key : string)
  : result vec :=
  match V with
  | MinMax =>
      p ← subscript (_params self) key;
      p_max ← subscript p "max";
      p_min ← subscript p "min";
      bvec fsub p_max p_min
  | Normal => p ← subscript (_params self) key; subscript p "std"
  | Robust =>
      p ← subscript (_params self) key;
      p_q3 ← subscript p "q3";
      p_q1 ← subscript p "q1";
      bvec fsub p_q3 p_q1
  | Identity => Ok []
  end.

(** [V.normalize(V.denormalize(y, key), key)]. *)
Definition roundtrip_back (V : variant) (self : Standardizer)
    (y : ndarray) (key : string) : result pyval :=
  match V with
  | MinMax =>
      x ← MinMaxStandardizer.denormalize self y key;
      PArr <$> MinMaxStandardizer.normalize self x key
  | Normal =>
      x ← NormalStandardizer.denormalize self y key;
      PArr <$> NormalStandardizer.normalize self x key
  | Robust =>
      x ← RobustStandardizer.denormalize self y key;
      PArr <$> RobustStandardizer.normalize self x key
  | Identity =>
      let x := NoneStandardizer.denormalize self [PArr y; PStr key] in
      Ok (NoneStandardizer.normalize self [x; PStr key])
  end.

(** The vector a fitting class computes to subtract from an array and the
    vector it computes to divide by, as functions of the array it was
    given. *)
Definition location_of (V : variant) (a : ndarray) : vec :=
  match V with
  | MinMax => reduce1 fminimum <$> columns a
  | Normal => amean a
  | Robust => amedian a
  | Identity => []
  end.

Definition scale_of (sqrt_fn : Qc -> Qc) (V : variant) (a : ndarray) : vec :=
  match V with
  | MinMax =>
      zip_with fsub (reduce1 fmaximum <$> columns a)
                    (reduce1 fminimum <$> columns a)
  | Normal => astd sqrt_fn a
  | Robust =>
      zip_with fsub
        (quantile1 RobustStandardizer.three_quarters <$> columns a)
        (quantile1 RobustStandardizer.quarter <$> columns a)
  | Identity => []
  end.

(** A one-column array with its column repeated [n] times, as broadcasting
    reads it. *)
Definition tile (n : nat) (x : ndarray) : ndarray :=
  {| ncols := n; rows := stretch n <$> rows x |}.

(** The size of a value: a tuple is larger than each of its items. *)
Fixpoint pysize (v : pyval) : nat :=
  match v with
  | PTuple items => S (list_sum (pysize <$> items))
  | _ => 1
  end.

(** ** The statistics in the words of their definitions

    Stated on lists of rationals, for comparison with the array code. *)

Definition Qsum (l : list Qc) : Qc := foldr Qcplus 0 l.

Definition Qlen (l : list Qc) : Qc := Qc_of_Z (Z.of_nat (length l)).

Definition is_least (m : Qc) (l : list Qc) : Prop :=
  m ∈ l /\ forall x, x ∈ l -> m <= x.

Definition is_greatest (m : Qc) (l : list Qc) : Prop :=
  m ∈ l /\ forall x, x ∈ l -> x <= m.

Definition mean_spec (l : list Qc) : Qc := Qsum l / Qlen l.



(** The [p]-th quantile of the sorted observations [s] by linear
    interpolation: the position [(n - 1) * p] falls between two consecutive
    observations and the value is taken on the line through them. *)
Definition quantile_spec (p : Qc) (s : list Qc) : Qc :=
  let h := Qc_of_Z (Z.of_nat (length s - 1)) * p in
  let i := Z.to_nat (Qfloor h) in
  let below := nth i s 0 in
  let above := nth (i + 1) s below in
  below + (h - Qc_of_Z (Z.of_nat i)) * (above - below).

(** The line through the observations at the positions around [h], read
    at [h]. *)
Definition interp (s : list Qc) (h : Qc) : Qc :=
  let i := Z.to_nat (Qfloor h) in
  let below := nth i s 0 in
  let above := nth (i + 1) s below in
  below + (h - Qc_of_Z (Z.of_nat i)) * (above - below).

(** The median of the sorted observations [s]: the middle one, or the
    mean of the two middle ones. *)
Definition median_spec (s : list Qc) : Qc :=
  let n := length s in
  if Nat.even n
  then (nth (n / 2 - 1) s 0 + nth (n / 2) s 0) / 2
  else nth (n / 2) s 0.

(** ** The transforms, entry by entry

    [f] maps every well-formed array [x] of [c] columns to an array of the
    same shape whose entry in column [j] is [(x - loc[j]) / scl[j]]. *)
Definition normalizes_by (f : ndarray -> result ndarray) (loc scl : vec)
    (c : nat) : Prop :=
  forall x, wf x -> ncols x = c ->
  exists y, f x = Ok y /\ wf y /\ ncols y = c /\
            length (rows y) = length (rows x) /\
            forall i j xij m s,
              get x i j = Some xij -> loc !! j = Some m -> scl !! j = Some s ->
              get y i j = Some (fdiv (fsub xij m) s).


(** ** Examples *)

Definition q (n : Z) : fnum := Fin (Qc_of_Z n).

Definition arr (c : nat) (l : list (list Z)) : ndarray :=
  {| ncols := c; rows := (fun r : list Z => q <$> r) <$> l |}.

Definition example_x : ndarray := arr 2 [[1; 2]; [3; 4]; [5; 6]]%Z.





Definition from_ok (r : result Standardizer) : Standardizer :=
  match r with
  | Ok self => self
  | Err _ => mk_Standardizer [] ∅ ∅
  end.

(** A square root for the examples: exact on the rationals whose numerator
    and denominator are perfect squares, and rounded down to 53 binary
    places on the others. *)
Definition example_sqrt (x : Qc) : Qc :=
  let n := Qnum x in
  let d := Zpos (Qden x) in
  if decide (Z.sqrt n * Z.sqrt n = n /\ Z.sqrt d * Z.sqrt d = d)%Z
  then Q2Qc (Z.sqrt n # Z.to_pos (Z.sqrt d))
  else Q2Qc (Z.sqrt (n * 2 ^ 106 / d) # 2 ^ 53).


(** [MinMaxStandardizer(x=example_x)] and its siblings. *)
Definition example_minmax : Standardizer :=
  from_ok (MinMaxStandardizer.__init__ [("x", example_x)]).



Definition example_robust : Standardizer :=
  from_ok (RobustStandardizer.__init__ [("x", example_x)]).

Definition example_y : ndarray := arr 2 [[1; 2]; [3; 6]]%Z.


(** One constant column. *)
Definition example_flat : ndarray := arr 1 [[1]; [1]]%Z.

Definition example_degenerate : Standardizer :=
  from_ok (MinMaxStandardizer.__init__ [("c", example_flat)]).

(** A column with a missing value. *)
Definition example_nan : ndarray := {| ncols := 1; rows := [[q 1]; [NaN]] |}.

Definition example_poisoned : Standardizer :=
  from_ok (NormalStandardizer.__init__ example_sqrt [("n", example_nan)]).

Definition example_none : Standardizer :=
  from_ok (NoneStandardizer.__init__ [("x", example_x)]).

(** * Properties *)

(** ** The error monad *)

Lemma bind_ok {A B} (r : result A) (f : A -> result B) (b : B) :
  r ≫= f = Ok b -> exists a, r = Ok a /\ f a = Ok b.
Proof. destruct r as [a|e]; simpl; [eauto | discriminate]. Qed.

Lemma fmap_ok {A B} (r : result A) (f : A -> B) (b : B) :
  f <$> r = Ok b -> exists a, r = Ok a /\ f a = b.
Proof. destruct r as [a|e]; simpl; [intros [= <-]; eauto | discriminate]. Qed.

Ltac inv_ok :=
  repeat match goal with
  | H : Ok _ = Ok _ |- _ => progress simplify_eq
  | H : Err _ = Ok _ |- _ => discriminate H
  | H : _ ≫= _ = Ok _ |- _ =>
      let a := fresh "a" in let E := fresh "E" in
      apply bind_ok in H as (a & E & H)
  | H : _ <$> _ = Ok _ |- _ =>
      let a := fresh "a" in let E := fresh "E" in
      apply fmap_ok in H as (a & E & H)
  end.

Lemma subscript_ok {V} (d : gmap string V) key v :
  subscript d key = Ok v <-> d !! key = Some v.
Proof. unfold subscript. destruct (d !! key); split; congruence. Qed.

Lemma subscript_missing {V} (d : gmap string V) key :
  d !! key = None -> subscript d key = Err (KeyError key).
Proof. unfold subscript. intros ->. reflexivity. Qed.

(** ** Broadcasting at matching shapes *)

Lemma broadcast_len_same n : broadcast_len n n = Ok n.
Proof. unfold broadcast_len. rewrite decide_True; done. Qed.

Lemma stretch_same n (r : vec) : length r = n -> stretch n r = r.
Proof. intros <-. destruct r as [|x [|y r]]; reflexivity. Qed.

Lemma bvec_same op (u v : vec) :
  length u = length v -> bvec op u v = Ok (zip_with op u v).
Proof.
  intros E. unfold bvec. rewrite E, broadcast_len_same. simpl.
  rewrite !stretch_same; done.
Qed.

(** The array a broadcast yields when the vector has one entry per
    column. *)
Definition rowwise (op : fnum -> fnum -> fnum) (a : ndarray) (v : vec)
  : ndarray :=
  {| ncols := ncols a; rows := (fun r => zip_with op r v) <$> rows a |}.

Lemma barr_same op a (v : vec) :
  wf a -> ncols a = length v -> barr op a v = Ok (rowwise op a v).
Proof.
  intros Hwf E. unfold barr, rowwise. rewrite <- E, broadcast_len_same. simpl.
  do 2 f_equal. apply map_ext_Forall. unfold wf in Hwf.
  eapply Forall_impl; [exact Hwf|]; simpl. intros r Hr.
  rewrite (stretch_same _ r Hr), (stretch_same _ v); done.
Qed.

Lemma rowwise_wf op a (v : vec) :
  wf a -> ncols a = length v -> wf (rowwise op a v).
Proof.
  intros Hwf E. unfold wf in *. simpl.
  apply Forall_map. eapply Forall_impl; [exact Hwf|]. intros r Hr. simpl in *.
  rewrite length_zip_with. lia.
Qed.

Lemma rowwise_get op a (v : vec) i j x y :
  get a i j = Some x -> v !! j = Some y ->
  get (rowwise op a v) i j = Some (op x y).
Proof.
  unfold get, rowwise. simpl. intros Hx Hy.
  rewrite list_lookup_fmap.
  destruct (rows a !! i) as [r|]; simpl in *; [|done].
  rewrite lookup_zip_with, Hx. simpl. by rewrite Hy.
Qed.

(** ** Arithmetic on finite entries *)

Lemma is_finite_Fin x : is_finite x <-> exists a, x = Fin a.
Proof. destruct x; simpl; split; try done; eauto; by intros [? ?]. Qed.

Lemma is_nonzero_finite x : is_nonzero x -> is_finite x.
Proof. by destruct x. Qed.

(** An entry of a floating dtype. *)
Definition is_float (x : fnum) : Prop :=
  match x with Int _ => False | _ => True end.

Lemma is_finite_float x : is_finite x -> is_float x.
Proof. by destruct x. Qed.

Lemma fsub_finite_inv x y :
  is_float x -> is_float y ->
  is_finite (fsub x y) -> is_finite x /\ is_finite y.
Proof. by destruct x, y. Qed.



Lemma ndarray_eta (a : ndarray) : {| ncols := ncols a; rows := rows a |} = a.
Proof. by destruct a. Qed.


(** ** The constructor loop *)

Section FitLoop.
Variable fit : ndarray -> result (params * ndarray).

Lemma fit_loop_other items : forall s o k,
  fit_loop fit items s = Ok o -> k ∉ items.*1 ->
  _params o !! k = _params s !! k /\ data o !! k = data s !! k.
Proof.
  induction items as [|[key value] items IH]; intros s o k H Hk; simpl in *.
  - by injection H as <-.
  - inv_ok. apply not_elem_of_cons in Hk as [Hne Hk].
    destruct (IH _ _ _ H Hk) as [-> ->]. simpl.
    rewrite !lookup_insert_ne; done.
Qed.

Lemma fit_loop_lookup items : forall s o k v,
  fit_loop fit items s = Ok o -> NoDup items.*1 -> (k, v) ∈ items ->
  exists p d, fit v = Ok (p, d) /\
              _params o !! k = Some p /\ data o !! k = Some d.
Proof.
  induction items as [|[key value] items IH]; intros s o k v H Hnd Hin;
    simpl in *.
  - by apply elem_of_nil in Hin.
  - inv_ok. apply NoDup_cons in Hnd as [Hnotin Hnd].
    apply elem_of_cons in Hin as [[= -> ->]|Hin].
    + destruct a as [p d]. exists p, d. split; [done|].
      destruct (fit_loop_other _ _ _ _ H Hnotin) as [-> ->]. simpl.
      rewrite !lookup_insert_eq. done.
    + eapply IH; eauto.
Qed.

End FitLoop.

Lemma MinMax_loop_fit items : forall s,
  MinMaxStandardizer.loop items s = fit_loop MinMaxStandardizer.fit items s.
Proof.
  induction items as [|[key value] items IH]; intros s; simpl; [done|].
  unfold MinMaxStandardizer.fit.
  destruct (amin value) as [mn|]; simpl; [|done].
  destruct (amax value) as [mx|]; simpl; [|done].
  destruct (barr fsub value mn) as [num|]; simpl; [|done].
  destruct (bvec fsub mx mn) as [den|]; simpl; [|done].
  destruct (barr fdiv num den) as [y|]; simpl; [|done].
  apply IH.
Qed.

Lemma Normal_loop_fit sqrt_fn items : forall s,
  NormalStandardizer.loop sqrt_fn items s =
  fit_loop (NormalStandardizer.fit sqrt_fn) items s.
Proof.
  induction items as [|[key value] items IH]; intros s; simpl; [done|].
  unfold NormalStandardizer.fit.
  destruct (barr fsub value (amean value)) as [num|]; simpl; [|done].
  destruct (barr fdiv num (astd sqrt_fn value)) as [y|]; simpl; [|done].
  apply IH.
Qed.

Lemma Robust_loop_fit items : forall s,
  RobustStandardizer.loop items s = fit_loop RobustStandardizer.fit items s.
Proof.
  induction items as [|[key value] items IH]; intros s; simpl; [done|].
  unfold RobustStandardizer.fit.
  destruct (aquantile RobustStandardizer.quarter value) as [q1|];
    simpl; [|done].
  destruct (aquantile RobustStandardizer.three_quarters value) as [q3|];
    simpl; [|done].
  destruct (barr fsub value (amedian value)) as [num|]; simpl; [|done].
  destruct (bvec fsub q3 q1) as [den|]; simpl; [|done].
  destruct (barr fdiv num den) as [y|]; simpl; [|done].
  apply IH.
Qed.

(** ** Construction *)

Lemma fit_of_is_Some sqrt_fn V : V <> Identity -> is_Some (fit_of sqrt_fn V).
Proof. destruct V; simpl; eauto. congruence. Qed.

Lemma construct_fit sqrt_fn V kwargs f :
  fit_of sqrt_fn V = Some f ->
  construct sqrt_fn V kwargs = fit_loop f kwargs (fresh kwargs).
Proof.
  destruct V; intros [= <-].
  - exact (MinMax_loop_fit kwargs (fresh kwargs)).
  - exact (Normal_loop_fit sqrt_fn kwargs (fresh kwargs)).
  - exact (Robust_loop_fit kwargs (fresh kwargs)).
Qed.

Lemma construct_registered sqrt_fn V kwargs f o k v :
  fit_of sqrt_fn V = Some f ->
  construct sqrt_fn V kwargs = Ok o ->
  NoDup kwargs.*1 -> (k, v) ∈ kwargs ->
  exists p d, f v = Ok (p, d) /\
              _params o !! k = Some p /\ data o !! k = Some d.
Proof.
  intros Hf H. rewrite (construct_fit _ _ _ _ Hf) in H.
  eauto using fit_loop_lookup.
Qed.

Lemma construct_unregistered sqrt_fn V kwargs o k :
  construct sqrt_fn V kwargs = Ok o -> k ∉ kwargs.*1 ->
  _params o !! k = None /\ data o !! k = None.
Proof.
  intros H Hk. destruct (fit_of sqrt_fn V) as [f|] eqn:Hf.
  - rewrite (construct_fit _ _ _ _ Hf) in H.
    destruct (fit_loop_other _ _ _ _ _ H Hk) as [-> ->]. done.
  - destruct V; try discriminate. injection H as <-. done.
Qed.

(** ** Normalizing the registered array again *)

Lemma MinMax_normalize_fit o k v p d :
  MinMaxStandardizer.fit v = Ok (p, d) -> _params o !! k = Some p ->
  MinMaxStandardizer.normalize o v k = Ok d.
Proof.
  unfold MinMaxStandardizer.fit, MinMaxStandardizer.normalize.
  intros H Hp. inv_ok. apply subscript_ok in Hp. rewrite Hp. simpl.
  unfold subscript. simplify_map_eq. rewrite E1, E2. simpl. exact E3.
Qed.

Lemma Normal_normalize_fit sqrt_fn o k v p d :
  NormalStandardizer.fit sqrt_fn v = Ok (p, d) -> _params o !! k = Some p ->
  NormalStandardizer.normalize o v k = Ok d.
Proof.
  unfold NormalStandardizer.fit, NormalStandardizer.normalize.
  intros H Hp. inv_ok. apply subscript_ok in Hp. rewrite Hp. simpl.
  unfold subscript. simplify_map_eq. rewrite E. simpl. exact E0.
Qed.

Lemma Robust_normalize_fit o k v p d :
  RobustStandardizer.fit v = Ok (p, d) -> _params o !! k = Some p ->
  RobustStandardizer.normalize o v k = Ok d.
Proof.
  unfold RobustStandardizer.fit, RobustStandardizer.normalize.
  intros H Hp. inv_ok. apply subscript_ok in Hp. rewrite Hp. simpl.
  unfold subscript. simplify_map_eq. rewrite E1, E2. simpl. exact E3.
Qed.

Lemma normalize_registered sqrt_fn V kwargs o k v :
  V <> Identity ->
  construct sqrt_fn V kwargs = Ok o ->
  NoDup kwargs.*1 -> (k, v) ∈ kwargs ->
  exists d, data o !! k = Some d /\ normalize V o v k = Ok (PArr d).
Proof.
  intros HV H Hnd Hin.
  destruct (fit_of_is_Some sqrt_fn V HV) as [f Hf].
  destruct (construct_registered _ _ _ _ _ _ _ Hf H Hnd Hin)
    as (p & d & Hfit & Hp & Hd).
  exists d. split; [done|].
  destruct V; simpl in Hf; simplify_eq; simpl.
  - by rewrite (MinMax_normalize_fit _ _ _ _ _ Hfit Hp).
  - by rewrite (Normal_normalize_fit _ _ _ _ _ _ Hfit Hp).
  - by rewrite (Robust_normalize_fit _ _ _ _ _ Hfit Hp).
Qed.

Lemma lookup_unregistered sqrt_fn V kwargs o k :
  construct sqrt_fn V kwargs = Ok o -> k ∉ kwargs.*1 ->
  lookup V o k = Err (KeyError k).
Proof.
  intros H Hk. destruct (construct_unregistered _ _ _ _ _ H Hk) as [_ Hd].
  unfold lookup, AbsStandardizer.__getitem__.
  by rewrite (subscript_missing _ _ Hd).
Qed.

Lemma pysize_tuple_neq (x : pyval) : PTuple [x] <> x.
Proof.
  intros E. apply (f_equal pysize) in E. simpl in E. lia.
Qed.

(** ** Columns *)

Lemma vec_finite_fmap (c : vec) :
  vec_finite c <-> exists l : list Qc, c = Fin <$> l.
Proof.
  split.
  - induction 1 as [|x c Hx _ [l ->]]; [by exists []|].
    apply is_finite_Fin in Hx as [a ->]. by exists (a :: l).
  - intros [l ->]. apply Forall_fmap, Forall_true. done.
Qed.

Lemma column_finite a j : finite a -> vec_finite (column j a).
Proof.
  unfold finite, column, vec_finite. intros H.
  apply Forall_forall. intros x Hx.
  apply list_elem_of_omap in Hx as (r & Hr & Hx).
  rewrite Forall_forall in H. specialize (H r Hr).
  rewrite Forall_forall in H. apply H.
  by eapply list_elem_of_lookup_2.
Qed.

Lemma column_length a j :
  wf a -> (j < ncols a)%nat -> length (column j a) = length (rows a).
Proof.
  unfold wf, column. intros H Hj.
  induction H as [|r rs Hr _ IH]; simpl; [done|].
  destruct (lookup_lt_is_Some_2 r j) as [x ->]; [lia|]. simpl. f_equal. exact IH.
Qed.

Lemma column_lookup a i j x :
  wf a -> get a i j = Some x -> column j a !! i = Some x.
Proof.
  unfold wf, get, column. intros H. revert i.
  induction H as [|r rs Hr Hrs IH]; intros i Hx; [by destruct i|].
  destruct i as [|i]; simpl in *.
  - by rewrite Hx.
  - assert (Hj : (j < length r)%nat).
    { destruct (rs !! i) as [r'|] eqn:E; simpl in *; [|done].
      apply lookup_lt_Some in Hx.
      pose proof (Forall_lookup_1 _ _ _ _ Hrs E) as Hr'. simpl in Hr'. lia. }
    destruct (lookup_lt_is_Some_2 r j Hj) as [y ->]. simpl. by apply IH.
Qed.

Lemma columns_length a : length (columns a) = ncols a.
Proof. unfold columns. by rewrite length_map, length_seq. Qed.

Lemma columns_lookup a j :
  (j < ncols a)%nat -> columns a !! j = Some (column j a).
Proof.
  intros Hj. unfold columns. rewrite list_lookup_fmap.
  by rewrite lookup_seq_lt.
Qed.

Lemma reduce_columns_lookup (f : vec -> fnum) a j :
  (j < ncols a)%nat -> (f <$> columns a) !! j = Some (f (column j a)).
Proof. intros Hj. by rewrite list_lookup_fmap, columns_lookup. Qed.

(** ** Minimum and maximum *)

Lemma fminimum_Fin (a b : Qc) :
  fminimum (Fin a) (Fin b) = Fin (if decide (a <= b) then a else b).
Proof. simpl. by case_bool_decide; case_decide. Qed.

Lemma fmaximum_Fin (a b : Qc) :
  fmaximum (Fin a) (Fin b) = Fin (if decide (a <= b) then b else a).
Proof. simpl. by case_bool_decide; case_decide. Qed.

Lemma foldl_fminimum (l : list Qc) : forall acc,
  exists m, foldl fminimum (Fin acc) (Fin <$> l) = Fin m /\
            is_least m (acc :: l).
Proof.
  induction l as [|y l IH]; intros acc.
  - exists acc. split; [done|]. split; [apply list_elem_of_here|].
    intros x ->%list_elem_of_singleton. reflexivity.
  - change (foldl fminimum (Fin acc) (Fin <$> y :: l))
      with (foldl fminimum (fminimum (Fin acc) (Fin y)) (Fin <$> l)).
    rewrite fminimum_Fin.
    destruct (IH (if decide (acc <= y) then acc else y)) as (m & -> & Hin & Hle).
    exists m. split; [done|]. split.
    + apply elem_of_cons in Hin as [->|Hin].
      * case_decide; [apply list_elem_of_here|].
        apply list_elem_of_further, list_elem_of_here.
      * by do 2 apply list_elem_of_further.
    + intros x Hx.
      assert (Hm : m <= (if decide (acc <= y) then acc else y))
        by (apply Hle, list_elem_of_here).
      apply elem_of_cons in Hx as [->|Hx].
      * case_decide; [done|]. etrans; [exact Hm|].
        apply Qclt_le_weak. by apply Qclt_nge.
      * apply elem_of_cons in Hx as [->|Hx].
        -- case_decide; [|done]. by etrans.
        -- by apply Hle, list_elem_of_further.
Qed.

Lemma foldl_fmaximum (l : list Qc) : forall acc,
  exists m, foldl fmaximum (Fin acc) (Fin <$> l) = Fin m /\
            is_greatest m (acc :: l).
Proof.
  induction l as [|y l IH]; intros acc.
  - exists acc. split; [done|]. split; [apply list_elem_of_here|].
    intros x ->%list_elem_of_singleton. reflexivity.
  - change (foldl fmaximum (Fin acc) (Fin <$> y :: l))
      with (foldl fmaximum (fmaximum (Fin acc) (Fin y)) (Fin <$> l)).
    rewrite fmaximum_Fin.
    destruct (IH (if decide (acc <= y) then y else acc)) as (m & -> & Hin & Hle).
    exists m. split; [done|]. split.
    + apply elem_of_cons in Hin as [->|Hin].
      * case_decide; [|apply list_elem_of_here].
        apply list_elem_of_further, list_elem_of_here.
      * by do 2 apply list_elem_of_further.
    + intros x Hx.
      assert (Hm : (if decide (acc <= y) then y else acc) <= m)
        by (apply Hle, list_elem_of_here).
      apply elem_of_cons in Hx as [->|Hx].
      * case_decide; [|done]. by etrans.
      * apply elem_of_cons in Hx as [->|Hx].
        -- case_decide; [done|]. etrans; [|exact Hm].
           apply Qclt_le_weak. by apply Qclt_nge.
        -- by apply Hle, list_elem_of_further.
Qed.

(** The reduction of a finite, non-empty column is its least entry. *)
Lemma reduce1_fminimum (l : list Qc) :
  l <> [] ->
  exists m, reduce1 fminimum (Fin <$> l) = Fin m /\ is_least m l.
Proof. destruct l as [|x l]; [done|]. intros _. apply foldl_fminimum. Qed.

Lemma reduce1_fmaximum (l : list Qc) :
  l <> [] ->
  exists m, reduce1 fmaximum (Fin <$> l) = Fin m /\ is_greatest m l.
Proof. destruct l as [|x l]; [done|]. intros _. apply foldl_fmaximum. Qed.

(** ** Mean and standard deviation *)

Lemma foldl_fadd_Fin (l : list Qc) : forall acc,
  foldl fadd (Fin acc) (Fin <$> l) = Fin (acc + Qsum l).
Proof.
  induction l as [|x l IH]; intros acc; simpl.
  - by rewrite Qcplus_0_r.
  - rewrite IH. f_equal. ring.
Qed.

Lemma fsum_Fin (l : list Qc) : fsum (Fin <$> l) = Fin (Qsum l).
Proof. unfold fsum. rewrite foldl_fadd_Fin. f_equal. ring. Qed.

Lemma Qlen_nonzero (l : list Qc) : l <> [] -> Qlen l <> 0.
Proof.
  intros Hl. unfold Qlen. rewrite <- Z2Qc_inj_0. intros E%Z2Qc_inj.
  destruct l; [done|]. simpl in E. lia.
Qed.


Lemma fdiv_Fin (a b : Qc) : b <> 0 -> fdiv (Fin a) (Fin b) = Fin (a / b).
Proof. intros Hb. simpl. by rewrite decide_False. Qed.

Lemma mean1_Fin (l : list Qc) :
  l <> [] -> mean1 (Fin <$> l) = Fin (mean_spec l).
Proof.
  intros Hl. unfold mean1, of_nat. rewrite fsum_Fin, length_fmap.
  by apply fdiv_Fin, Qlen_nonzero.
Qed.

Lemma mean1_nil : mean1 [] = NaN.
Proof. reflexivity. Qed.






Lemma std1_nil sqrt_fn : std1 sqrt_fn [] = NaN.
Proof. reflexivity. Qed.

(** ** Sorting *)

Global Instance fle_total : Total fle.
Proof.
  intros [a| | | |a] [b| | | |b]; unfold fle; simpl; auto;
    rewrite !bool_decide_spec; apply (total Qcle).
Qed.

Global Instance fle_trans : Transitive fle.
Proof.
  intros [a| | | |a] [b| | | |b] [c| | | |c]; unfold fle; simpl; auto;
    try done; rewrite !bool_decide_spec; apply Qcle_trans.
Qed.

(** The order is antisymmetric on the entries of a floating dtype; an
    integer and the float of the same value compare equal. *)
Lemma fle_antisymm x y : is_float x -> is_float y -> fle x y -> fle y x -> x = y.
Proof.
  destruct x as [a| | | |a], y as [b| | | |b]; unfold fle; simpl; try done.
  rewrite !bool_decide_spec. intros _ _ H1 H2. f_equal. by apply Qcle_antisym.
Qed.

Lemma sort_Permutation (c : vec) : sort c ≡ₚ c.
Proof. apply merge_sort_Permutation. Qed.

(** Sorting a finite column is sorting its rationals, whichever way they
    are sorted. *)
Lemma sort_Fin (l s : list Qc) :
  Sorted Qcle s -> s ≡ₚ l -> sort (Fin <$> l) = Fin <$> s.
Proof.
  intros Hs Hp. apply (Sorted_unique_strong fle).
  - intros x y Hx (b & -> & _)%list_elem_of_fmap. intros H1 H2.
    rewrite sort_Permutation in Hx.
    apply list_elem_of_fmap in Hx as (a & -> & _).
    by apply fle_antisymm.
  - apply Sorted_merge_sort, _.
  - eapply Sorted_fmap; [|exact Hs]. intros x y Hxy.
    unfold fle. simpl. by apply bool_decide_pack.
  - rewrite sort_Permutation. by rewrite Hp.
Qed.

Lemma has_nan_Fin (l : list Qc) : has_nan (Fin <$> l) = false.
Proof.
  unfold has_nan. apply bool_decide_eq_false.
  intros (x & ? & _)%list_elem_of_fmap. discriminate.
Qed.

Lemma lookup_total_Fin (s : list Qc) i :
  (i < length s)%nat -> (Fin <$> s) !!! i = Fin (nth i s 0).
Proof.
  intros Hi. apply list_lookup_total_correct.
  rewrite list_lookup_fmap, nth_lookup.
  by destruct (lookup_lt_is_Some_2 s i Hi) as [x ->].
Qed.

(** ** Quantiles *)

Lemma lerp_Fin (a b t : Qc) : lerp (Fin a) (Fin b) t = Fin (a + t * (b - a)).
Proof.
  unfold lerp. case_decide; simpl; f_equal; ring.
Qed.

Lemma virtual_index_bounds (n : nat) (p : Qc) :
  0 <= p -> p <= 1 ->
  let h := Qc_of_Z (Z.of_nat (n - 1)) * p in
  (0 <= Qfloor h <= Z.of_nat (n - 1))%Z.
Proof.
  intros Hp0 Hp1 h.
  assert (Hn : 0 <= Qc_of_Z (Z.of_nat (n - 1))).
  { pose proof (proj1 (Z2Qc_inj_le 0 (Z.of_nat (n - 1)))) as H.
    rewrite Z2Qc_inj_0 in H. apply H. lia. }
  assert (H0 : 0 <= h) by (by apply Qcmult_nonneg_nonneg).
  assert (H1 : h <= Qc_of_Z (Z.of_nat (n - 1))).
  { unfold h. rewrite <- (Qcmult_1_r (Qc_of_Z (Z.of_nat (n - 1)))) at 2.
    by apply Qcmult_le_mono_nonneg_l. }
  split.
  - change 0%Z with (Qfloor (inject_Z 0)). apply Qfloor_resp_le. exact H0.
  - rewrite <- (Qfloor_Z (Z.of_nat (n - 1))). apply Qfloor_resp_le. exact H1.
Qed.

(** On a finite, non-empty column [np.quantile] is the quantile by linear
    interpolation of the sorted observations. *)
Lemma quantile1_Fin (p : Qc) (l s : list Qc) :
  l <> [] -> 0 <= p -> p <= 1 -> Sorted Qcle s -> s ≡ₚ l ->
  quantile1 p (Fin <$> l) = Fin (quantile_spec p s).
Proof.
  intros Hl Hp0 Hp1 Hs Hperm. unfold quantile1, quantile_spec.
  rewrite has_nan_Fin, (sort_Fin l s Hs Hperm), length_fmap.
  assert (Hlen : length s = length l) by (by rewrite Hperm).
  rewrite <- Hlen.
  assert (Hn : (0 < length s)%nat).
  { rewrite Hlen. destruct l; [done|]. simpl. lia. }
  pose proof (virtual_index_bounds (length s) p Hp0 Hp1) as Hb.
  cbv zeta in Hb.
  set (h := Qc_of_Z (Z.of_nat (length s - 1)) * p) in *.
  set (i := Z.to_nat (Qfloor h)).
  assert (Hi : (i <= length s - 1)%nat) by (unfold i; lia).
  rewrite !lookup_total_Fin by lia. rewrite lerp_Fin. do 4 f_equal.
  destruct (decide (i + 1 <= length s - 1)%nat) as [Hin|Hout].
  - rewrite Nat.min_l by done. apply nth_indep. lia.
  - rewrite Nat.min_r by lia.
    assert (i = length s - 1)%nat as Hi' by lia.
    rewrite (nth_overflow s (nth i s 0)) by lia. by rewrite Hi'.
Qed.

Lemma lerp_NaN t : lerp NaN NaN t = NaN.
Proof. unfold lerp. by case_decide. Qed.

Lemma quantile1_nil p : quantile1 p [] = NaN.
Proof. unfold quantile1. simpl. apply lerp_NaN. Qed.

(** ** Median *)

Lemma take_two_drop (s : list Qc) : forall k,
  (k + 1 < length s)%nat ->
  take 2 (drop k s) = [nth k s 0; nth (k + 1) s 0].
Proof.
  induction s as [|a s IH]; intros k Hk; simpl in Hk; [lia|].
  destruct k as [|k]; simpl.
  - destruct s as [|b s]; simpl in *; [lia|done].
  - apply IH. lia.
Qed.

Lemma take_one_drop (s : list Qc) : forall k,
  (k < length s)%nat -> take 1 (drop k s) = [nth k s 0].
Proof.
  induction s as [|a s IH]; intros k Hk; simpl in Hk; [lia|].
  destruct k as [|k]; simpl; [done|]. apply IH. lia.
Qed.

Lemma mean_spec_one (a : Qc) : mean_spec [a] = a.
Proof.
  unfold mean_spec, Qlen, Qsum. cbn [length foldr].
  change (Z.of_nat 1) with 1%Z. rewrite Z2Qc_inj_1. field. done.
Qed.

Lemma mean_spec_two (a b : Qc) : mean_spec [a; b] = (a + b) / 2.
Proof.
  unfold mean_spec, Qlen, Qsum. cbn [length foldr].
  change (Z.of_nat 2) with 2%Z. rewrite Z2Qc_inj_2. field. done.
Qed.

Lemma even_half (n : nat) :
  Nat.even n = true -> (0 < n)%nat -> (n / 2 - 1 + 1 = n / 2 /\ n / 2 < n)%nat.
Proof.
  intros He Hn. apply Nat.even_spec in He as [m ->].
  rewrite (Nat.mul_comm 2 m), Nat.div_mul by done. lia.
Qed.

(** On a finite, non-empty column [np.median] is the median of the sorted
    observations. *)
Lemma median1_Fin (l s : list Qc) :
  l <> [] -> Sorted Qcle s -> s ≡ₚ l ->
  median1 (Fin <$> l) = Fin (median_spec s).
Proof.
  intros Hl Hs Hperm. unfold median1, median_spec.
  rewrite has_nan_Fin, (sort_Fin l s Hs Hperm), length_fmap.
  assert (Hlen : length s = length l) by (by rewrite Hperm).
  rewrite <- Hlen.
  assert (Hn : (0 < length s)%nat).
  { rewrite Hlen. destruct l; [done|]. simpl. lia. }
  rewrite <- !fmap_drop, <- !fmap_take.
  destruct (Nat.even (length s)) eqn:He.
  - destruct (even_half _ He Hn) as [E1 E2].
    rewrite take_two_drop by lia. rewrite E1.
    rewrite mean1_Fin by done. by rewrite mean_spec_two.
  - rewrite take_one_drop by (apply Nat.div_lt; lia).
    rewrite mean1_Fin by done. by rewrite mean_spec_one.
Qed.

Lemma median1_nil : median1 [] = NaN.
Proof. reflexivity. Qed.

(** ** What construction stores *)

Lemma amin_ok a mn :
  amin a = Ok mn -> mn = reduce1 fminimum <$> columns a /\ rows a <> [].
Proof. unfold amin. destruct (rows a); [done|]. by intros [= <-]. Qed.

Lemma amax_ok a mx :
  amax a = Ok mx -> mx = reduce1 fmaximum <$> columns a /\ rows a <> [].
Proof. unfold amax. destruct (rows a); [done|]. by intros [= <-]. Qed.

Lemma aquantile_ok p a v :
  aquantile p a = Ok v -> v = quantile1 p <$> columns a /\ rows a <> [].
Proof. unfold aquantile. destruct (rows a); [done|]. by intros [= <-]. Qed.

Lemma reduce_length (f : vec -> fnum) a : length (f <$> columns a) = ncols a.
Proof. by rewrite length_fmap, columns_length. Qed.

Lemma MinMax_fit_ok a p d :
  MinMaxStandardizer.fit a = Ok (p, d) ->
  rows a <> [] /\
  p = {["min" := reduce1 fminimum <$> columns a;
        "max" := reduce1 fmaximum <$> columns a]}.
Proof.
  unfold MinMaxStandardizer.fit. intros H. inv_ok.
  apply amin_ok in E as [-> ?]. apply amax_ok in E0 as [-> _]. done.
Qed.

Lemma Normal_fit_ok sqrt_fn a p d :
  NormalStandardizer.fit sqrt_fn a = Ok (p, d) ->
  p = {["mean" := amean a; "std" := astd sqrt_fn a]}.
Proof. unfold NormalStandardizer.fit. intros H. inv_ok. done. Qed.

Lemma Robust_fit_ok a p d :
  RobustStandardizer.fit a = Ok (p, d) ->
  rows a <> [] /\
  p = {["q1" := quantile1 RobustStandardizer.quarter <$> columns a;
        "median" := amedian a;
        "q3" := quantile1 RobustStandardizer.three_quarters <$> columns a]}.
Proof.
  unfold RobustStandardizer.fit. intros H. inv_ok.
  apply aquantile_ok in E as [-> ?]. apply aquantile_ok in E0 as [-> _]. done.
Qed.

(** ** Finite parameters *)

Lemma columns_finite a : finite a -> Forall vec_finite (columns a).
Proof.
  intros H. unfold columns. apply Forall_fmap, Forall_true.
  intros j. by apply column_finite.
Qed.

Lemma zip_with_fmap_same {A} (f : fnum -> fnum -> fnum) (g h : A -> fnum)
    (l : list A) :
  zip_with f (g <$> l) (h <$> l) = (fun x => f (g x) (h x)) <$> l.
Proof. induction l as [|x l IH]; simpl; [done|]. f_equal. exact IH. Qed.

Lemma zip_with_fsub_finite (u : vec) : forall v : vec,
  length u = length v -> Forall is_float u -> Forall is_float v ->
  vec_finite (zip_with fsub u v) ->
  vec_finite u /\ vec_finite v.
Proof.
  unfold vec_finite.
  induction u as [|x u IH]; intros [|y v] E Hu Hv H; simplify_eq/=; [done|].
  apply Forall_cons in H as [Hxy H].
  apply Forall_cons in Hu as [Hx Hu]. apply Forall_cons in Hv as [Hy Hv].
  apply fsub_finite_inv in Hxy as [? ?]; [|done..].
  destruct (IH v E Hu Hv H). by split; constructor.
Qed.

(** The least and the greatest entry of a column of floats are floats. *)
Lemma foldl_float (f : fnum -> fnum -> fnum) (c : vec) :
  (forall x y, is_float x -> is_float y -> is_float (f x y)) ->
  forall acc, is_float acc -> Forall is_float c -> is_float (foldl f acc c).
Proof.
  intros Hf. induction c as [|x c IH]; intros acc Ha Hc; [done|].
  apply Forall_cons in Hc as [Hx Hc]. simpl. apply IH; [|done]. by apply Hf.
Qed.

Lemma fminimum_float x y : is_float x -> is_float y -> is_float (fminimum x y).
Proof. destruct x, y; try done; simpl; by case_match. Qed.

Lemma fmaximum_float x y : is_float x -> is_float y -> is_float (fmaximum x y).
Proof. destruct x, y; try done; simpl; by case_match. Qed.

Lemma reduce1_float (f : fnum -> fnum -> fnum) (c : vec) :
  (forall x y, is_float x -> is_float y -> is_float (f x y)) ->
  Forall is_float c -> is_float (reduce1 f c).
Proof.
  intros Hf Hc. destruct c as [|x c]; [done|].
  apply Forall_cons in Hc as [Hx Hc]. by apply foldl_float.
Qed.

Lemma vec_finite_float (c : vec) : vec_finite c -> Forall is_float c.
Proof. intros H. eapply Forall_impl; [exact H|]. apply is_finite_float. Qed.

Lemma amin_float a :
  finite a -> Forall is_float (reduce1 fminimum <$> columns a).
Proof.
  intros H. apply Forall_fmap. eapply Forall_impl; [by apply columns_finite|].
  intros c Hc. simpl. apply reduce1_float; [apply fminimum_float|].
  by apply vec_finite_float.
Qed.

Lemma amax_float a :
  finite a -> Forall is_float (reduce1 fmaximum <$> columns a).
Proof.
  intros H. apply Forall_fmap. eapply Forall_impl; [by apply columns_finite|].
  intros c Hc. simpl. apply reduce1_float; [apply fmaximum_float|].
  by apply vec_finite_float.
Qed.

Lemma nonzero_vec_finite (d : vec) : Forall is_nonzero d -> vec_finite d.
Proof. intros H. eapply Forall_impl; [exact H|]. apply is_nonzero_finite. Qed.

Lemma mean1_finite (c : vec) : vec_finite c -> c <> [] -> is_finite (mean1 c).
Proof.
  intros [l ->]%vec_finite_fmap Hc. rewrite mean1_Fin; [done|].
  by destruct l.
Qed.

Lemma std1_finite_mean sqrt_fn (c : vec) :
  vec_finite c -> is_finite (std1 sqrt_fn c) -> is_finite (mean1 c).
Proof.
  intros Hc Hs. apply mean1_finite; [done|]. intros ->.
  by rewrite std1_nil in Hs.
Qed.

Lemma median1_finite (c : vec) :
  vec_finite c -> c <> [] -> is_finite (median1 c).
Proof.
  intros [l ->]%vec_finite_fmap Hc.
  rewrite (median1_Fin l (merge_sort Qcle l)); [done| |..].
  - by destruct l.
  - apply Sorted_merge_sort, _.
  - apply merge_sort_Permutation.
Qed.

Lemma quantile1_finite_median p p' (c : vec) :
  vec_finite c -> is_finite (fsub (quantile1 p c) (quantile1 p' c)) ->
  is_finite (median1 c).
Proof.
  intros Hc Hq. apply median1_finite; [done|].
  intros ->. by rewrite !quantile1_nil in Hq.
Qed.

(** ** The round trip of the fitting classes *)


Lemma subscript_minmax (mn mx : vec) :
  subscript ({["min" := mn; "max" := mx]} : params) "min" = Ok mn /\
  subscript ({["min" := mn; "max" := mx]} : params) "max" = Ok mx.
Proof. unfold subscript. by simplify_map_eq. Qed.

Lemma subscript_normal (mean std : vec) :
  subscript ({["mean" := mean; "std" := std]} : params) "mean" = Ok mean /\
  subscript ({["mean" := mean; "std" := std]} : params) "std" = Ok std.
Proof. unfold subscript. by simplify_map_eq. Qed.

Lemma subscript_robust (q1 med q3 : vec) :
  let p : params := {["q1" := q1; "median" := med; "q3" := q3]} in
  subscript p "q1" = Ok q1 /\ subscript p "median" = Ok med /\
  subscript p "q3" = Ok q3.
Proof. unfold subscript. by simplify_map_eq. Qed.

(** The methods with the dictionary lookups resolved. *)
Lemma MinMax_normalize_eq o k (mn mx : vec) x :
  _params o !! k = Some {["min" := mn; "max" := mx]} ->
  MinMaxStandardizer.normalize o x k =
    num ← barr fsub x mn; den ← bvec fsub mx mn; barr fdiv num den.
Proof.
  intros Hp%subscript_ok. unfold MinMaxStandardizer.normalize.
  destruct (subscript_minmax mn mx) as [Hmin Hmax].
  rewrite Hp. simpl. repeat (rewrite ?Hmin, ?Hmax; simpl). done.
Qed.

Lemma MinMax_denormalize_eq o k (mn mx : vec) y :
  _params o !! k = Some {["min" := mn; "max" := mx]} ->
  MinMaxStandardizer.denormalize o y k =
    den ← bvec fsub mx mn; scaled ← barr fmul y den; barr fadd scaled mn.
Proof.
  intros Hp%subscript_ok. unfold MinMaxStandardizer.denormalize.
  destruct (subscript_minmax mn mx) as [Hmin Hmax].
  rewrite Hp. simpl. repeat (rewrite ?Hmin, ?Hmax; simpl). done.
Qed.

Lemma Normal_normalize_eq o k (mean std : vec) x :
  _params o !! k = Some {["mean" := mean; "std" := std]} ->
  NormalStandardizer.normalize o x k =
    num ← barr fsub x mean; barr fdiv num std.
Proof.
  intros Hp%subscript_ok. unfold NormalStandardizer.normalize.
  destruct (subscript_normal mean std) as [Hmean Hstd].
  rewrite Hp. simpl. repeat (rewrite ?Hmean, ?Hstd; simpl). done.
Qed.

Lemma Normal_denormalize_eq o k (mean std : vec) y :
  _params o !! k = Some {["mean" := mean; "std" := std]} ->
  NormalStandardizer.denormalize o y k =
    scaled ← barr fmul y std; barr fadd scaled mean.
Proof.
  intros Hp%subscript_ok. unfold NormalStandardizer.denormalize.
  destruct (subscript_normal mean std) as [Hmean Hstd].
  rewrite Hp. simpl. repeat (rewrite ?Hmean, ?Hstd; simpl). done.
Qed.

Lemma Robust_normalize_eq o k (q1 med q3 : vec) x :
  _params o !! k = Some {["q1" := q1; "median" := med; "q3" := q3]} ->
  RobustStandardizer.normalize o x k =
    num ← barr fsub x med; den ← bvec fsub q3 q1; barr fdiv num den.
Proof.
  intros Hp%subscript_ok. unfold RobustStandardizer.normalize.
  destruct (subscript_robust q1 med q3) as (Hq1 & Hmed & Hq3).
  rewrite Hp. simpl. repeat (rewrite ?Hq1, ?Hmed, ?Hq3; simpl). done.
Qed.

Lemma Robust_denormalize_eq o k (q1 med q3 : vec) y :
  _params o !! k = Some {["q1" := q1; "median" := med; "q3" := q3]} ->
  RobustStandardizer.denormalize o y k =
    den ← bvec fsub q3 q1; scaled ← barr fmul y den; barr fadd scaled med.
Proof.
  intros Hp%subscript_ok. unfold RobustStandardizer.denormalize.
  destruct (subscript_robust q1 med q3) as (Hq1 & Hmed & Hq3).
  rewrite Hp. simpl. repeat (rewrite ?Hq1, ?Hmed, ?Hq3; simpl). done.
Qed.




Lemma scale_MinMax o k (mn mx : vec) :
  _params o !! k = Some {["min" := mn; "max" := mx]} ->
  scale MinMax o k = bvec fsub mx mn.
Proof.
  intros Hp%subscript_ok. simpl.
  destruct (subscript_minmax mn mx) as [Hmin Hmax].
  rewrite Hp. simpl. by rewrite Hmax, Hmin.
Qed.

Lemma scale_Normal o k (mean std : vec) :
  _params o !! k = Some {["mean" := mean; "std" := std]} ->
  scale Normal o k = Ok std.
Proof.
  intros Hp%subscript_ok. simpl.
  destruct (subscript_normal mean std) as [Hmean Hstd].
  rewrite Hp. simpl. by rewrite Hstd.
Qed.

Lemma scale_Robust o k (q1 med q3 : vec) :
  _params o !! k = Some {["q1" := q1; "median" := med; "q3" := q3]} ->
  scale Robust o k = bvec fsub q3 q1.
Proof.
  intros Hp%subscript_ok. simpl.
  destruct (subscript_robust q1 med q3) as (Hq1 & Hmed & Hq3).
  rewrite Hp. simpl. by rewrite Hq3, Hq1.
Qed.

Lemma amean_finite sqrt_fn a :
  finite a -> Forall is_nonzero (astd sqrt_fn a) -> vec_finite (amean a).
Proof.
  intros Hfin Hd. unfold amean, astd, vec_finite in *.
  apply Forall_fmap. rewrite Forall_fmap in Hd.
  pose proof (columns_finite a Hfin) as Hc.
  rewrite Forall_forall in Hd. rewrite Forall_forall in Hc.
  apply Forall_forall. intros c Hin.
  simpl. eapply std1_finite_mean; [by apply Hc|].
  by apply is_nonzero_finite, Hd.
Qed.

Lemma amedian_finite p p' a :
  finite a ->
  Forall is_nonzero
    (zip_with fsub (quantile1 p <$> columns a) (quantile1 p' <$> columns a)) ->
  vec_finite (amedian a).
Proof.
  intros Hfin Hd. unfold amedian, vec_finite in *.
  rewrite zip_with_fmap_same in Hd.
  apply Forall_fmap. rewrite Forall_fmap in Hd.
  pose proof (columns_finite a Hfin) as Hc.
  rewrite Forall_forall in Hd. rewrite Forall_forall in Hc.
  apply Forall_forall. intros c Hin.
  simpl. eapply quantile1_finite_median; [by apply Hc|].
  by apply is_nonzero_finite, Hd.
Qed.

(** ** Entries of the transformed arrays *)



Lemma normalizes_by_intro (f : ndarray -> result ndarray) (loc scl : vec) c :
  length loc = c -> length scl = c ->
  (forall x, f x = num ← barr fsub x loc; barr fdiv num scl) ->
  normalizes_by f loc scl c.
Proof.
  intros El Es Hf x Hwf Ex.
  assert (E1 : ncols x = length loc) by congruence.
  assert (E2 : ncols x = length scl) by congruence.
  assert (W1 := rowwise_wf fsub x loc Hwf E1).
  assert (W2 := rowwise_wf fdiv _ scl W1 E2).
  exists (rowwise fdiv (rowwise fsub x loc) scl).
  split; [|split; [done|split; [|split]]].
  - rewrite Hf, (barr_same fsub x loc Hwf E1). simpl.
    exact (barr_same fdiv _ scl W1 E2).
  - exact Ex.
  - unfold rowwise. simpl. by rewrite !length_fmap.
  - intros i j xij m s Hx Hm Hs.
    apply rowwise_get; [|done]. by apply rowwise_get.
Qed.


(** A column of a well-formed array with rows is not empty. *)
Lemma column_nonempty a j (l : list Qc) :
  wf a -> rows a <> [] -> (j < ncols a)%nat -> column j a = Fin <$> l ->
  l <> [].
Proof.
  intros Hwf Hr Hj E ->. apply (f_equal length) in E.
  rewrite column_length in E by done. destruct (rows a); done.
Qed.

(** ** MinMax: parameters and range *)

Lemma minmax_columns a j (l : list Qc) :
  (j < ncols a)%nat -> column j a = Fin <$> l -> l <> [] ->
  exists lo hi,
    (reduce1 fminimum <$> columns a) !! j = Some (Fin lo) /\
    (reduce1 fmaximum <$> columns a) !! j = Some (Fin hi) /\
    is_least lo l /\ is_greatest hi l.
Proof.
  intros Hj Hc Hl.
  destruct (reduce1_fminimum l Hl) as (lo & Hlo & ?).
  destruct (reduce1_fmaximum l Hl) as (hi & Hhi & ?).
  exists lo, hi. rewrite !reduce_columns_lookup by done.
  rewrite Hc, Hlo, Hhi. done.
Qed.


Lemma Qcminus_nonneg (x y : Qc) : y <= x -> 0 <= x - y.
Proof. intros H. unfold Qcminus. by apply Qcle_minus_iff in H. Qed.

Lemma Qcminus_pos (x y : Qc) : y < x -> 0 < x - y.
Proof. intros H. unfold Qcminus. by apply Qclt_minus_iff in H. Qed.


(** ** Evaluations *)

Ltac evaluate := apply (bool_decide_unpack _); vm_compute; exact I.

Example MinMax_params_x :
  amin example_x = Ok [q 1; q 2] /\ amax example_x = Ok [q 5; q 6].
Proof. split; evaluate. Qed.

Example MinMax_normalized_x :
  MinMaxStandardizer.normalize example_minmax example_x "x"
  = Ok {| ncols := 2;
          rows := [[q 0; q 0];
                   [Fin (Q2Qc (1 # 2)); Fin (Q2Qc (1 # 2))];
                   [q 1; q 1]] |}.
Proof. evaluate. Qed.

Example Normal_params_y :
  amean example_y = [q 2; q 4] /\ astd example_sqrt example_y = [q 1; q 2].
Proof. split; evaluate. Qed.

Example Robust_params_x :
  aquantile RobustStandardizer.quarter example_x = Ok [q 2; q 3] /\
  amedian example_x = [q 3; q 4] /\
  aquantile RobustStandardizer.three_quarters example_x = Ok [q 4; q 5].
Proof. repeat split; evaluate. Qed.

Example quantile_interpolates :
  quantile1 RobustStandardizer.quarter [q 4; q 1; q 2; q 3; q 10]
    = q 2 /\
  quantile1 RobustStandardizer.three_quarters [q 4; q 1; q 2; q 3]
    = Fin (Q2Qc (13 # 4)) /\
  median1 [q 4; q 1; q 2; q 3] = Fin (Q2Qc (5 # 2)).
Proof. repeat split; evaluate. Qed.

(** A constant column: construction does not raise, the stored entries
    are NaN, a new entry becomes an infinity, and the round trip does not
    return the array. *)
Example degenerate_column :
  MinMaxStandardizer.__init__ [("c", example_flat)] = Ok example_degenerate /\
  AbsStandardizer.__getitem__ example_degenerate "c"
    = Ok {| ncols := 1; rows := [[NaN]; [NaN]] |} /\
  MinMaxStandardizer.normalize example_degenerate (arr 1 [[2]]%Z) "c"
    = Ok {| ncols := 1; rows := [[PInf]] |} /\
  roundtrip MinMax example_degenerate (arr 1 [[2]]%Z) "c"
    = Ok (PArr {| ncols := 1; rows := [[NaN]] |}).
Proof. split; [vm_compute; reflexivity|]. repeat split; evaluate. Qed.

(** An array without rows cannot be reduced by [min]; an array of another
    column count does not broadcast. *)
Example construction_and_shape_errors :
  MinMaxStandardizer.__init__ [("e", arr 2 [])] = Err ValueError /\
  MinMaxStandardizer.normalize example_minmax (arr 3 [[1; 2; 3]]%Z) "x"
    = Err ValueError /\
  MinMaxStandardizer.normalize example_minmax (arr 1 [[1]; [5]]%Z) "x"
    = Ok {| ncols := 2; rows := [[q 0; Fin (Q2Qc (-1 # 4))];
                                 [q 1; Fin (Q2Qc (3 # 4))]] |}.
Proof. split; [vm_compute; reflexivity|]. split; evaluate. Qed.

(** ** Integer columns under the mean and the deviation *)












(** ** The square root of the examples *)



(** ** Claims *)






(** C3. For every class but [NoneStandardizer], [normalize] and
    [denormalize] called with a key that was not supplied at construction
    raise [KeyError] for that key, whatever the array; for
    [NoneStandardizer] the same calls return the tuple of their arguments,
    and no key makes them raise. *)
Theorem unknown_key sqrt_fn V kwargs o x k :
  construct sqrt_fn V kwargs = Ok o -> k ∉ kwargs.*1 ->
  match V with
  | Identity =>
      normalize V o x k = Ok (PTuple [PArr x; PStr k]) /\
      denormalize V o x k = Ok (PTuple [PArr x; PStr k]) /\
      forall k', ~ raises (normalize V o x k') /\
                 ~ raises (denormalize V o x k')
  | _ =>
      normalize V o x k = Err (KeyError k) /\
      denormalize V o x k = Err (KeyError k)
  end.
Proof.
  intros H Hk. destruct (construct_unregistered _ _ _ _ _ H Hk) as [Hp _].
  apply subscript_missing in Hp.
  destruct V; simpl;
    unfold MinMaxStandardizer.normalize, MinMaxStandardizer.denormalize,
      NormalStandardizer.normalize, NormalStandardizer.denormalize,
      RobustStandardizer.normalize, RobustStandardizer.denormalize;
    rewrite ?Hp; simpl; auto.
Qed.

Lemma unknown_key_witness :
  construct example_sqrt MinMax [("x", example_x)] = Ok example_minmax /\
  ("missing" ∉ [("x", example_x)].*1) /\
  normalize MinMax example_minmax example_x "missing"
    = Err (KeyError "missing") /\
  denormalize MinMax example_minmax example_x "missing"
    = Err (KeyError "missing").
Proof.
  assert (H1 : construct example_sqrt MinMax [("x", example_x)]
               = Ok example_minmax) by (vm_compute; reflexivity).
  assert (H2 : "missing" ∉ [("x", example_x)].*1)
    by (simpl; rewrite list_elem_of_singleton; discriminate).
  split; [exact H1|]. split; [exact H2|].
  exact (unknown_key example_sqrt MinMax _ _ example_x "missing" H1 H2).
Defined.





(** C6. For [MinMaxStandardizer], [NormalStandardizer] and
    [RobustStandardizer] and every key registered at construction, the
    array [self[key]] is exactly the array that [normalize] returns for
    the array registered under that key. *)
Theorem lookup_is_normalize sqrt_fn V kwargs o k v :
  V <> Identity ->
  construct sqrt_fn V kwargs = Ok o ->
  NoDup kwargs.*1 -> (k, v) ∈ kwargs ->
  exists d, lookup V o k = Ok (PArr d) /\ normalize V o v k = Ok (PArr d).
Proof.
  intros HV H Hnd Hin.
  destruct (normalize_registered _ _ _ _ _ _ HV H Hnd Hin) as (d & Hd & Hn).
  exists d. split; [|done].
  unfold lookup, AbsStandardizer.__getitem__.
  apply subscript_ok in Hd. by rewrite Hd.
Qed.

Lemma lookup_is_normalize_witness :
  Robust <> Identity /\
  construct example_sqrt Robust [("x", example_x)] = Ok example_robust /\
  NoDup [("x", example_x)].*1 /\
  (("x", example_x) ∈ [("x", example_x)]) /\
  exists d, lookup Robust example_robust "x" = Ok (PArr d) /\
            normalize Robust example_robust example_x "x" = Ok (PArr d).
Proof.
  assert (H0 : Robust <> Identity) by discriminate.
  assert (H1 : construct example_sqrt Robust [("x", example_x)]
               = Ok example_robust) by (vm_compute; reflexivity).
  assert (H2 : NoDup [("x", example_x)].*1)
    by (simpl; apply NoDup_singleton).
  assert (H3 : ("x", example_x) ∈ [("x", example_x)])
    by (apply list_elem_of_singleton; reflexivity).
  repeat (split; [assumption|]).
  exact (lookup_is_normalize example_sqrt Robust _ _ _ _ H0 H1 H2 H3).
Defined.

(** C6 does not extend to [NoneStandardizer]: the key is registered, the
    lookup raises, and [normalize] returns a tuple. *)
Lemma lookup_is_normalize_Identity_fails :
  construct example_sqrt Identity [("x", example_x)] = Ok example_none /\
  (("x", example_x) ∈ [("x", example_x)]) /\
  lookup Identity example_none "x" = Err (KeyError "x") /\
  normalize Identity example_none example_x "x"
    = Ok (PTuple [PArr example_x; PStr "x"]) /\
  lookup Identity example_none "x"
    <> normalize Identity example_none example_x "x".
Proof.
  split; [reflexivity|]. split; [apply list_elem_of_singleton; reflexivity|].
  split; [reflexivity|]. split; [reflexivity|]. discriminate.
Qed.

(** C7. [NoneStandardizer] never stores anything in [data]: the lookup of
    a key supplied at construction raises [KeyError]. *)
Theorem Identity_lookup_registered_raises :
  construct example_sqrt Identity [("x", example_x)] = Ok example_none /\
  ("x" ∈ [("x", example_x)].*1) /\
  lookup Identity example_none "x" = Err (KeyError "x").
Proof.
  split; [reflexivity|]. split; [|reflexivity].
  simpl. apply list_elem_of_singleton. reflexivity.
Qed.

(** The same for every construction and every key. *)
Lemma Identity_lookup_raises sqrt_fn kwargs o k :
  construct sqrt_fn Identity kwargs = Ok o ->
  lookup Identity o k = Err (KeyError k).
Proof. intros [= <-]. reflexivity. Qed.




(** C9. [NoneStandardizer.normalize(a, b, c)] is the tuple [(a, b, c)], and
    so is [denormalize(a, b, c)]; for any number of arguments both return
    the tuple of the arguments as they are. *)
Theorem Identity_passes_through self (a b c : pyval) :
  NoneStandardizer.normalize self [a; b; c] = PTuple [a; b; c] /\
  NoneStandardizer.denormalize self [a; b; c] = PTuple [a; b; c] /\
  forall args : list pyval,
    NoneStandardizer.normalize self args = PTuple args /\
    NoneStandardizer.denormalize self args = PTuple args.
Proof. repeat split. Qed.

(** C10. With one argument [x] the result is the tuple [(x,)], which is
    not [x]. *)
Theorem Identity_single_argument self (x : pyval) :
  NoneStandardizer.normalize self [x] = PTuple [x] /\
  NoneStandardizer.denormalize self [x] = PTuple [x] /\
  NoneStandardizer.normalize self [x] <> x /\
  NoneStandardizer.denormalize self [x] <> x.
Proof.
  repeat split; apply pysize_tuple_neq.
Qed.

(** * Further properties *)

(** ** Outcomes of construction *)

Lemma barr_ok op a (v : vec) :
  ncols a = length v ->
  exists b, barr op a v = Ok b /\ ncols b = ncols a /\
            length (rows b) = length (rows a).
Proof.
  intros E. unfold barr. rewrite <- E, broadcast_len_same. simpl.
  eexists. split; [done|]. simpl. by rewrite length_fmap.
Qed.

Lemma barr_error op a (v : vec) e : barr op a v = Err e -> e = ValueError.
Proof.
  unfold barr, broadcast_len. repeat case_decide; simpl; congruence.
Qed.

Lemma bvec_error op (u v : vec) e : bvec op u v = Err e -> e = ValueError.
Proof.
  unfold bvec, broadcast_len. repeat case_decide; simpl; congruence.
Qed.

Lemma MinMax_fit_succeeds a :
  rows a <> [] -> exists pd, MinMaxStandardizer.fit a = Ok pd.
Proof.
  intros Hr. unfold MinMaxStandardizer.fit, amin, amax.
  destruct (rows a) eqn:Er; [done|]. simpl.
  set (mn := reduce1 fminimum <$> columns a).
  set (mx := reduce1 fmaximum <$> columns a).
  assert (Emn : length mn = ncols a) by apply reduce_length.
  assert (Emx : length mx = ncols a) by apply reduce_length.
  destruct (barr_ok fsub a mn) as (num & -> & En & _); [done|]. simpl.
  rewrite bvec_same by congruence. simpl.
  destruct (barr_ok fdiv num (zip_with fsub mx mn)) as (y & -> & _).
  { rewrite length_zip_with. lia. }
  simpl. eauto.
Qed.

Lemma Normal_fit_succeeds sqrt_fn a :
  exists d, NormalStandardizer.fit sqrt_fn a
            = Ok ({["mean" := amean a; "std" := astd sqrt_fn a]}, d) /\
            ncols d = ncols a /\ length (rows d) = length (rows a).
Proof.
  unfold NormalStandardizer.fit.
  assert (Emean : length (amean a) = ncols a) by apply reduce_length.
  assert (Estd : length (astd sqrt_fn a) = ncols a) by apply reduce_length.
  destruct (barr_ok fsub a (amean a)) as (num & -> & En & El); [done|]. simpl.
  destruct (barr_ok fdiv num (astd sqrt_fn a)) as (y & -> & Ey & Ely);
    [congruence|].
  simpl. exists y. split; [done|]. split; congruence.
Qed.

Lemma Robust_fit_succeeds a :
  rows a <> [] -> exists pd, RobustStandardizer.fit a = Ok pd.
Proof.
  intros Hr. unfold RobustStandardizer.fit, aquantile.
  destruct (rows a) eqn:Er; [done|]. simpl.
  set (q1 := quantile1 RobustStandardizer.quarter <$> columns a).
  set (q3 := quantile1 RobustStandardizer.three_quarters <$> columns a).
  assert (E1 : length q1 = ncols a) by apply reduce_length.
  assert (E3 : length q3 = ncols a) by apply reduce_length.
  assert (Em : length (amedian a) = ncols a) by apply reduce_length.
  destruct (barr_ok fsub a (amedian a)) as (num & -> & En & _); [done|]. simpl.
  rewrite bvec_same by congruence. simpl.
  destruct (barr_ok fdiv num (zip_with fsub q3 q1)) as (y & -> & _).
  { rewrite length_zip_with. lia. }
  simpl. eauto.
Qed.

Lemma MinMax_fit_error a e : MinMaxStandardizer.fit a = Err e -> e = ValueError.
Proof.
  unfold MinMaxStandardizer.fit, amin, amax.
  destruct (rows a); simpl; [congruence|].
  destruct (barr fsub a _) eqn:E1; simpl; [|intros [= <-]; by eapply barr_error].
  destruct (bvec fsub _ _) eqn:E2; simpl; [|intros [= <-]; by eapply bvec_error].
  destruct (barr fdiv _ _) eqn:E3; simpl; [done|].
  intros [= <-]. by eapply barr_error.
Qed.

Lemma MinMax_fit_ok_rows a pd : MinMaxStandardizer.fit a = Ok pd -> rows a <> [].
Proof. destruct pd as [p d]. intros H. by apply MinMax_fit_ok in H as [? _]. Qed.

Section FitLoopOutcome.
Variable fit : ndarray -> result (params * ndarray).

Lemma fit_loop_succeeds items : forall s,
  (forall k a, (k, a) ∈ items -> exists pd, fit a = Ok pd) ->
  exists o, fit_loop fit items s = Ok o.
Proof.
  induction items as [|[key value] items IH]; intros s H; simpl; [eauto|].
  destruct (H key value) as [pd ->]; [apply list_elem_of_here|]. simpl.
  apply IH. intros k a Hin. eapply H. by apply list_elem_of_further.
Qed.

Lemma fit_loop_fitted items : forall s o k a,
  fit_loop fit items s = Ok o -> (k, a) ∈ items -> exists pd, fit a = Ok pd.
Proof.
  induction items as [|[key value] items IH]; intros s o k a H Hin;
    simpl in *; [by apply elem_of_nil in Hin|].
  inv_ok. apply elem_of_cons in Hin as [[= -> ->]|Hin]; eauto.
Qed.

Lemma fit_loop_error items : forall s e,
  fit_loop fit items s = Err e -> exists k a, (k, a) ∈ items /\ fit a = Err e.
Proof.
  induction items as [|[key value] items IH]; intros s e H; simpl in *;
    [done|].
  destruct (fit value) as [pd|e'] eqn:Ef; simpl in H.
  - destruct (IH _ _ H) as (k & a & Hin & Ha).
    exists k, a. split; [by apply list_elem_of_further | done].
  - injection H as <-. exists key, value. split; [apply list_elem_of_here|done].
Qed.

Lemma fit_loop_keys items : forall s o k,
  fit_loop fit items s = Ok o ->
  (is_Some (_params o !! k) <-> k ∈ items.*1 \/ is_Some (_params s !! k)) /\
  (is_Some (data o !! k) <-> k ∈ items.*1 \/ is_Some (data s !! k)) /\
  data_to_stadnardize o = data_to_stadnardize s.
Proof.
  induction items as [|[key value] items IH]; intros s o k H; simpl in *.
  - injection H as <-. rewrite elem_of_nil. tauto.
  - inv_ok. destruct (IH _ _ k H) as (Hp & Hd & Ha). simpl in *.
    rewrite Hp, Hd, Ha, elem_of_cons.
    destruct (decide (k = key)) as [->|Hne].
    + rewrite !lookup_insert_eq. repeat split; eauto.
    + rewrite !lookup_insert_ne by done. tauto.
Qed.
End FitLoopOutcome.

(** X1. After construction the keys of [_params] and the keys of [data]
    are the same set: the keys supplied, for the three fitting classes, and
    no key at all for [NoneStandardizer]; the supplied items are kept
    unchanged in [data_to_stadnardize]. *)
Theorem stored_keys sqrt_fn V kwargs o k :
  construct sqrt_fn V kwargs = Ok o ->
  (is_Some (_params o !! k) <-> V <> Identity /\ k ∈ kwargs.*1) /\
  (is_Some (data o !! k) <-> V <> Identity /\ k ∈ kwargs.*1) /\
  data_to_stadnardize o = kwargs.
Proof.
  intros H. destruct (fit_of sqrt_fn V) as [f|] eqn:Hf.
  - rewrite (construct_fit _ _ _ _ Hf) in H.
    destruct (fit_loop_keys _ _ _ _ k H) as (Hp & Hd & Ha). simpl in *.
    rewrite Hp, Hd, !lookup_empty.
    assert (V <> Identity) by (intros ->; discriminate).
    assert (~ is_Some (@None params)) by (intros [? [=]]).
    assert (~ is_Some (@None ndarray)) by (intros [? [=]]).
    tauto.
  - destruct V; try discriminate. injection H as <-. simpl.
    rewrite !lookup_empty.
    assert (~ is_Some (@None params)) by (intros [? [=]]).
    assert (~ is_Some (@None ndarray)) by (intros [? [=]]).
    tauto.
Qed.

Lemma stored_keys_witness :
  construct example_sqrt Robust [("x", example_x)] = Ok example_robust /\
  is_Some (_params example_robust !! "x") /\
  is_Some (data example_robust !! "x") /\
  ~ is_Some (data example_robust !! "y").
Proof.
  assert (H1 : construct example_sqrt Robust [("x", example_x)]
               = Ok example_robust) by (vm_compute; reflexivity).
  split; [exact H1|].
  pose proof (stored_keys example_sqrt Robust _ _ "x" H1) as (Hp & Hd & _).
  pose proof (stored_keys example_sqrt Robust _ _ "y" H1) as (_ & Hd' & _).
  split; [|split].
  - apply Hp. split; [discriminate|]. simpl. apply list_elem_of_here.
  - apply Hd. split; [discriminate|]. simpl. apply list_elem_of_here.
  - intros [_ Hin]%Hd'. simpl in Hin.
    apply list_elem_of_singleton in Hin. discriminate.
Defined.

(** X2. When every supplied array has at least one row, the constructor
    of every class returns an instance. *)
Theorem construct_succeeds sqrt_fn V kwargs :
  (forall k a, (k, a) ∈ kwargs -> rows a <> []) ->
  exists o, construct sqrt_fn V kwargs = Ok o.
Proof.
  intros H. destruct (fit_of sqrt_fn V) as [f|] eqn:Hf.
  - rewrite (construct_fit _ _ _ _ Hf). apply fit_loop_succeeds.
    intros k a Hin. specialize (H k a Hin).
    destruct V; simpl in Hf; simplify_eq.
    + by apply MinMax_fit_succeeds.
    + destruct (Normal_fit_succeeds sqrt_fn a) as (d & -> & _). eauto.
    + by apply Robust_fit_succeeds.
  - destruct V; try discriminate. simpl. eauto.
Qed.

Lemma construct_succeeds_witness :
  (forall k a, (k, a) ∈ [("x", example_x); ("y", example_y)] ->
               rows a <> []) /\
  exists o,
    construct example_sqrt Robust [("x", example_x); ("y", example_y)] = Ok o.
Proof.
  assert (H : forall k a, (k, a) ∈ [("x", example_x); ("y", example_y)] ->
                          rows a <> []).
  { intros k a Hin. apply elem_of_cons in Hin as [[= _ ->]|Hin]; [done|].
    apply list_elem_of_singleton in Hin as [= _ ->]. done. }
  split; [exact H|].
  exact (construct_succeeds example_sqrt Robust _ H).
Defined.

(** X3. The constructor of [MinMaxStandardizer] raises [ValueError] as
    soon as one supplied array has no rows, whatever the other arrays
    are. *)
Theorem MinMax_empty_array_raises kwargs k a :
  (k, a) ∈ kwargs -> rows a = [] ->
  MinMaxStandardizer.__init__ kwargs = Err ValueError.
Proof.
  intros Hin Hr.
  change (MinMaxStandardizer.__init__ kwargs)
    with (construct example_sqrt MinMax kwargs).
  rewrite (construct_fit example_sqrt MinMax kwargs _ eq_refl).
  destruct (fit_loop MinMaxStandardizer.fit kwargs (fresh kwargs))
    as [o|e] eqn:H.
  - destruct (fit_loop_fitted _ _ _ _ _ _ H Hin) as [pd Hpd].
    apply MinMax_fit_ok_rows in Hpd. done.
  - destruct (fit_loop_error _ _ _ _ H) as (k' & a' & _ & He).
    by rewrite (MinMax_fit_error _ _ He).
Qed.

Lemma MinMax_empty_array_raises_witness :
  (("e", arr 2 []) ∈ [("x", example_x); ("e", arr 2 [])]) /\
  rows (arr 2 []) = [] /\
  MinMaxStandardizer.__init__ [("x", example_x); ("e", arr 2 [])]
    = Err ValueError.
Proof.
  assert (H1 : ("e", arr 2 []) ∈ [("x", example_x); ("e", arr 2 [])])
    by (apply list_elem_of_further, list_elem_of_here).
  assert (H2 : rows (arr 2 []) = []) by reflexivity.
  split; [exact H1|]. split; [exact H2|].
  exact (MinMax_empty_array_raises _ "e" (arr 2 []) H1 H2).
Defined.

Lemma columns_no_rows a : rows a = [] -> columns a = replicate (ncols a) [].
Proof.
  intros Hr. unfold columns, column. rewrite Hr. simpl.
  rewrite (const_fmap _ (seq 0 (ncols a)) []) by done.
  by rewrite length_seq.
Qed.

(** X4. The constructor of [NormalStandardizer] does not raise for an
    array without rows, whatever else is supplied: it stores NaN as mean
    and as standard deviation of every column, and an array without rows
    as the normalized data. *)
Theorem Normal_empty_array sqrt_fn kwargs k a :
  NoDup kwargs.*1 -> (k, a) ∈ kwargs -> rows a = [] ->
  exists o,
    NormalStandardizer.__init__ sqrt_fn kwargs = Ok o /\
    _params o !! k = Some {["mean" := replicate (ncols a) NaN;
                            "std" := replicate (ncols a) NaN]} /\
    data o !! k = Some {| ncols := ncols a; rows := [] |}.
Proof.
  intros Hnd Hin Hr.
  destruct (fit_loop_succeeds (NormalStandardizer.fit sqrt_fn) kwargs
              (fresh kwargs)) as [o H].
  { intros k' a' _. destruct (Normal_fit_succeeds sqrt_fn a') as (d & -> & _).
    eauto. }
  rewrite <- (construct_fit sqrt_fn Normal kwargs _ eq_refl) in H.
  exists o. split; [exact H|].
  destruct (construct_registered sqrt_fn Normal _ _ _ _ _ eq_refl H Hnd Hin)
    as (p & d & Hfit & -> & ->).
  destruct (Normal_fit_succeeds sqrt_fn a) as (d' & Hfit' & Ec & El).
  rewrite Hfit' in Hfit. injection Hfit as <- <-.
  unfold amean, astd. rewrite (columns_no_rows a Hr), !fmap_replicate.
  split; [done|]. f_equal. destruct d' as [c rs]. simpl in *.
  rewrite Hr in El. destruct rs; [|done]. by rewrite Ec.
Qed.

Lemma Normal_empty_array_witness :
  NoDup [("y", example_y); ("e", arr 2 [])].*1 /\
  (("e", arr 2 []) ∈ [("y", example_y); ("e", arr 2 [])]) /\
  exists o,
    NormalStandardizer.__init__ example_sqrt
      [("y", example_y); ("e", arr 2 [])] = Ok o /\
    _params o !! "e" = Some {["mean" := [NaN; NaN]; "std" := [NaN; NaN]]}.
Proof.
  assert (H1 : NoDup [("y", example_y); ("e", arr 2 [])].*1)
    by (apply (bool_decide_unpack _); vm_compute; exact I).
  assert (H2 : ("e", arr 2 []) ∈ [("y", example_y); ("e", arr 2 [])])
    by (apply list_elem_of_further, list_elem_of_here).
  split; [exact H1|]. split; [exact H2|].
  destruct (Normal_empty_array example_sqrt _ "e" (arr 2 []) H1 H2 eq_refl)
    as (o & Ho & Hp & _).
  exists o. split; [exact Ho | exact Hp].
Defined.

(** ** The fitted transform of a registered key *)

Lemma location_of_length V a :
  V <> Identity -> length (location_of V a) = ncols a.
Proof. destruct V; simpl; intros; try done; apply reduce_length. Qed.

Lemma scale_of_length sqrt_fn V a :
  V <> Identity -> length (scale_of sqrt_fn V a) = ncols a.
Proof.
  destruct V; simpl; intros; try done;
    rewrite ?length_zip_with, ?reduce_length; try lia.
  apply reduce_length.
Qed.

(** For a registered key the methods of a fitting class are the two
    broadcasts with the location and the scale of the registered array, and
    the stored array is the registered array normalized. *)
Lemma registered_affine sqrt_fn V kwargs o k a :
  V <> Identity ->
  construct sqrt_fn V kwargs = Ok o ->
  NoDup kwargs.*1 -> (k, a) ∈ kwargs ->
  let loc := location_of V a in
  let scl := scale_of sqrt_fn V a in
  (forall x, normalize V o x k
             = PArr <$> (num ← barr fsub x loc; barr fdiv num scl)) /\
  (forall y, denormalize V o y k
             = PArr <$> (scaled ← barr fmul y scl; barr fadd scaled loc)) /\
  scale V o k = Ok scl /\
  exists d, data o !! k = Some d /\
            (num ← barr fsub a loc; barr fdiv num scl) = Ok d.
Proof.
  intros HV H Hnd Hin.
  destruct V; [| | |done]; cbv zeta;
    unfold location_of, scale_of, normalize, denormalize.
  - destruct (construct_registered sqrt_fn MinMax _ _ _ _ _ eq_refl H Hnd Hin)
      as (p & d & Hfit & Hp & Hd).
    pose proof (MinMax_normalize_fit _ _ _ _ _ Hfit Hp) as Hn.
    apply MinMax_fit_ok in Hfit as [_ ->].
    set (mn := reduce1 fminimum <$> columns a) in *.
    set (mx := reduce1 fmaximum <$> columns a) in *.
    assert (E : length mx = length mn)
      by (unfold mx, mn; by rewrite !reduce_length).
    repeat split.
    + intros x. rewrite (MinMax_normalize_eq _ _ _ _ _ Hp).
      by rewrite (bvec_same fsub mx mn E).
    + intros y. rewrite (MinMax_denormalize_eq _ _ _ _ _ Hp).
      by rewrite (bvec_same fsub mx mn E).
    + rewrite (scale_MinMax _ _ _ _ Hp). by apply bvec_same.
    + exists d. split; [done|].
      rewrite (MinMax_normalize_eq _ _ _ _ _ Hp) in Hn.
      by rewrite (bvec_same fsub mx mn E) in Hn.
  - destruct (construct_registered sqrt_fn Normal _ _ _ _ _ eq_refl H Hnd Hin)
      as (p & d & Hfit & Hp & Hd).
    pose proof (Normal_normalize_fit _ _ _ _ _ _ Hfit Hp) as Hn.
    apply Normal_fit_ok in Hfit as ->.
    repeat split.
    + intros x. by rewrite (Normal_normalize_eq _ _ _ _ _ Hp).
    + intros y. by rewrite (Normal_denormalize_eq _ _ _ _ _ Hp).
    + by rewrite (scale_Normal _ _ _ _ Hp).
    + exists d. split; [done|].
      by rewrite (Normal_normalize_eq _ _ _ _ _ Hp) in Hn.
  - destruct (construct_registered sqrt_fn Robust _ _ _ _ _ eq_refl H Hnd Hin)
      as (p & d & Hfit & Hp & Hd).
    pose proof (Robust_normalize_fit _ _ _ _ _ Hfit Hp) as Hn.
    apply Robust_fit_ok in Hfit as [_ ->].
    set (q1 := quantile1 RobustStandardizer.quarter <$> columns a) in *.
    set (q3 := quantile1 RobustStandardizer.three_quarters <$> columns a) in *.
    assert (E : length q3 = length q1)
      by (unfold q3, q1; by rewrite !reduce_length).
    repeat split.
    + intros x. rewrite (Robust_normalize_eq _ _ _ _ _ _ Hp).
      by rewrite (bvec_same fsub q3 q1 E).
    + intros y. rewrite (Robust_denormalize_eq _ _ _ _ _ _ Hp).
      by rewrite (bvec_same fsub q3 q1 E).
    + rewrite (scale_Robust _ _ _ _ _ Hp). by apply bvec_same.
    + exists d. split; [done|].
      rewrite (Robust_normalize_eq _ _ _ _ _ _ Hp) in Hn.
      by rewrite (bvec_same fsub q3 q1 E) in Hn.
Qed.

Lemma location_finite sqrt_fn V a :
  V <> Identity -> finite a -> Forall is_nonzero (scale_of sqrt_fn V a) ->
  vec_finite (location_of V a).
Proof.
  intros HV Hfin Hd. destruct V; [| | |done]; simpl in *.
  - eapply zip_with_fsub_finite;
      [|by apply amax_float|by apply amin_float|by apply nonzero_vec_finite].
    by rewrite !reduce_length.
  - by eapply amean_finite.
  - by eapply amedian_finite.
Qed.

(** ** Arrays of another shape *)

Lemma barr_mismatch op a (v : vec) :
  ncols a <> length v -> ncols a <> 1%nat -> length v <> 1%nat ->
  barr op a v = Err ValueError.
Proof.
  intros H1 H2 H3. unfold barr, broadcast_len.
  by rewrite !decide_False.
Qed.

(** X5. For a fitting class and a registered key, [normalize] and
    [denormalize] raise [ValueError] for an array whose column count
    differs from the registered one when neither count is one. *)
Theorem shape_mismatch_raises sqrt_fn V kwargs o k a x :
  V <> Identity ->
  construct sqrt_fn V kwargs = Ok o ->
  NoDup kwargs.*1 -> (k, a) ∈ kwargs ->
  ncols x <> ncols a -> ncols x <> 1%nat -> ncols a <> 1%nat ->
  normalize V o x k = Err ValueError /\
  denormalize V o x k = Err ValueError.
Proof.
  intros HV H Hnd Hin Hne Hx Ha.
  destruct (registered_affine sqrt_fn V _ _ _ _ HV H Hnd Hin)
    as (Hn & Hdn & _).
  pose proof (location_of_length V a HV) as El.
  pose proof (scale_of_length sqrt_fn V a HV) as Es.
  rewrite Hn, Hdn.
  rewrite (barr_mismatch fsub), (barr_mismatch fmul) by congruence. done.
Qed.

Lemma shape_mismatch_raises_witness :
  construct example_sqrt Robust [("x", example_x)] = Ok example_robust /\
  normalize Robust example_robust (arr 3 [[1; 2; 3]]%Z) "x"
    = Err ValueError /\
  denormalize Robust example_robust (arr 3 [[1; 2; 3]]%Z) "x"
    = Err ValueError.
Proof.
  assert (H1 : construct example_sqrt Robust [("x", example_x)]
               = Ok example_robust) by (vm_compute; reflexivity).
  assert (H2 : NoDup [("x", example_x)].*1)
    by (simpl; apply NoDup_singleton).
  assert (H3 : ("x", example_x) ∈ [("x", example_x)])
    by (apply list_elem_of_singleton; reflexivity).
  split; [exact H1|].
  apply (shape_mismatch_raises example_sqrt Robust [("x", example_x)]
           example_robust "x" example_x);
    try done; simpl; lia.
Defined.

Lemma stretch_idem n (r : vec) :
  length r = 1%nat -> stretch n (stretch n r) = stretch n r.
Proof.
  destruct r as [|z [|? ?]]; try done. intros _. simpl.
  by destruct n as [|[|n]].
Qed.

Lemma broadcast_len_one n : broadcast_len 1 n = Ok n.
Proof.
  unfold broadcast_len. case_decide; [by subst|]. by rewrite decide_True.
Qed.

Lemma barr_tile op x (v : vec) :
  wf x -> ncols x = 1%nat -> barr op x v = barr op (tile (length v) x) v.
Proof.
  intros Hwf E. unfold barr, tile. simpl.
  rewrite E, broadcast_len_one, broadcast_len_same. simpl. do 2 f_equal.
  rewrite <- list_fmap_compose. apply Forall_fmap_ext.
  eapply Forall_impl; [exact Hwf|]. intros r Hr. simpl in *.
  rewrite stretch_idem; [done|congruence].
Qed.

(** X6. For a fitting class and a registered key, [normalize] accepts a
    one-column array whatever the registered column count is: the result
    has the registered column count and is the result for the array with
    that column repeated in every column. *)
Theorem single_column_broadcasts sqrt_fn V kwargs o k a x :
  V <> Identity ->
  construct sqrt_fn V kwargs = Ok o ->
  NoDup kwargs.*1 -> (k, a) ∈ kwargs ->
  wf x -> ncols x = 1%nat ->
  exists y,
    normalize V o x k = Ok (PArr y) /\
    ncols y = ncols a /\ length (rows y) = length (rows x) /\
    normalize V o (tile (ncols a) x) k = Ok (PArr y).
Proof.
  intros HV H Hnd Hin Hwf Ex.
  destruct (registered_affine sqrt_fn V _ _ _ _ HV H Hnd Hin)
    as (Hn & _ & _).
  pose proof (location_of_length V a HV) as El.
  pose proof (scale_of_length sqrt_fn V a HV) as Es.
  rewrite !Hn. rewrite (barr_tile fsub x _ Hwf Ex), El.
  destruct (barr_ok fsub (tile (ncols a) x) (location_of V a))
    as (num & -> & En & Eln); [by rewrite El|]. simpl.
  destruct (barr_ok fdiv num (scale_of sqrt_fn V a))
    as (y & -> & Ey & Ely); [simpl in En; congruence|]. simpl.
  exists y. repeat split; try done; [simpl in *; congruence|].
  rewrite Ely, Eln. simpl. by rewrite length_fmap.
Qed.

Lemma single_column_broadcasts_witness :
  construct example_sqrt MinMax [("x", example_x)] = Ok example_minmax /\
  wf (arr 1 [[1]; [5]]%Z) /\
  exists y,
    normalize MinMax example_minmax (arr 1 [[1]; [5]]%Z) "x" = Ok (PArr y) /\
    ncols y = 2%nat.
Proof.
  assert (H1 : construct example_sqrt MinMax [("x", example_x)]
               = Ok example_minmax) by (vm_compute; reflexivity).
  assert (H2 : NoDup [("x", example_x)].*1)
    by (simpl; apply NoDup_singleton).
  assert (H3 : ("x", example_x) ∈ [("x", example_x)])
    by (apply list_elem_of_singleton; reflexivity).
  assert (H4 : wf (arr 1 [[1]; [5]]%Z)) by evaluate.
  split; [exact H1|]. split; [exact H4|].
  destruct (single_column_broadcasts example_sqrt MinMax _ _ "x" example_x
              (arr 1 [[1]; [5]]%Z) ltac:(discriminate) H1 H2 H3 H4 eq_refl)
    as (y & Hy & Ec & _).
  exists y. split; [exact Hy | exact Ec].
Defined.

(** ** The round trip in the other order *)

Lemma affine_back (a m d : Qc) :
  d <> 0 ->
  fdiv (fsub (fadd (fmul (Fin a) (Fin d)) (Fin m)) (Fin m)) (Fin d) = Fin a.
Proof.
  intros Hd. simpl. rewrite decide_False by done. f_equal. field. done.
Qed.

Lemma row_roundtrip_back (r : vec) : forall m d : vec,
  length r = length m -> length m = length d ->
  vec_finite r -> vec_finite m -> Forall is_nonzero d ->
  zip_with fdiv (zip_with fsub (zip_with fadd (zip_with fmul r d) m) m) d = r.
Proof.
  induction r as [|x r IH]; intros [|y m] [|z d] E1 E2 Hr Hm Hd;
    simplify_eq/=; [done|].
  apply Forall_cons in Hr as [Hx Hr]. apply Forall_cons in Hm as [Hy Hm].
  apply Forall_cons in Hd as [Hz Hd].
  destruct x as [a| | | |], y as [b| | | |], z as [c| | | |]; try done.
  f_equal; [by apply affine_back | by apply IH].
Qed.

Lemma affine_calls_back (y : ndarray) (m d : vec) :
  wf y -> finite y -> ncols y = length m -> length m = length d ->
  vec_finite m -> Forall is_nonzero d ->
  (scaled ← barr fmul y d; barr fadd scaled m)
    ≫= (fun x => num ← barr fsub x m; barr fdiv num d) = Ok y.
Proof.
  intros Hwf Hfin E1 E2 Hm Hd.
  assert (E3 : ncols y = length d) by congruence.
  assert (W1 := rowwise_wf fmul y d Hwf E3).
  assert (W2 := rowwise_wf fadd _ m W1 E1).
  assert (W3 := rowwise_wf fsub _ m W2 E1).
  rewrite (barr_same fmul y d Hwf E3). simpl.
  rewrite (barr_same fadd _ m W1 E1). simpl.
  rewrite (barr_same fsub _ m W2 E1). simpl.
  rewrite (barr_same fdiv _ d W3 E3). f_equal.
  unfold rowwise. simpl. rewrite <- (ndarray_eta y) at 3. f_equal.
  rewrite <- !list_fmap_compose. rewrite <- (list_fmap_id (rows y)) at 2.
  apply Forall_fmap_ext.
  unfold wf, finite in *. rewrite Forall_forall in Hwf.
  rewrite Forall_forall in Hfin.
  apply Forall_forall. intros r Hr. simpl.
  apply row_roundtrip_back; auto. rewrite (Hwf r Hr). congruence.
Qed.

(** X7. For a fitting class, a key registered with an array of finite
    entries of a floating dtype and an array [y] of such entries with the
    registered column count: when no entry of the scale is zero,
    [normalize(denormalize(y, key), key)] is exactly [y]. *)
Theorem roundtrip_back_exact sqrt_fn V kwargs o k a y :
  V <> Identity ->
  construct sqrt_fn V kwargs = Ok o ->
  NoDup kwargs.*1 -> (k, a) ∈ kwargs -> finite a ->
  wf y -> finite y -> ncols y = ncols a ->
  exists d, scale V o k = Ok d /\
            (Forall is_nonzero d -> roundtrip_back V o y k = Ok (PArr y)).
Proof.
  intros HV H Hnd Hin Ha Hwf Hy Ey.
  destruct (registered_affine sqrt_fn V _ _ _ _ HV H Hnd Hin)
    as (Hn & Hdn & Hs & _).
  pose proof (location_of_length V a HV) as El.
  pose proof (scale_of_length sqrt_fn V a HV) as Es.
  exists (scale_of sqrt_fn V a). split; [done|]. intros Hd.
  pose proof (location_finite sqrt_fn V a HV Ha Hd) as Hm.
  assert (E1 : ncols y = length (location_of V a)) by congruence.
  assert (E2 : length (location_of V a) = length (scale_of sqrt_fn V a))
    by congruence.
  pose proof (affine_calls_back y _ _ Hwf Hy E1 E2 Hm Hd) as Hb.
  specialize (Hdn y).
  destruct (scaled ← barr fmul y (scale_of sqrt_fn V a);
            barr fadd scaled (location_of V a)) as [x|] eqn:Ex;
    simpl in Hb; [|done].
  specialize (Hn x). rewrite Hb in Hn. simpl in Hn, Hdn.
  destruct V; [| | |done]; simpl in *.
  - destruct (MinMaxStandardizer.denormalize o y k); simplify_eq/=.
    by destruct (MinMaxStandardizer.normalize o x k); simplify_eq/=.
  - destruct (NormalStandardizer.denormalize o y k); simplify_eq/=.
    by destruct (NormalStandardizer.normalize o x k); simplify_eq/=.
  - destruct (RobustStandardizer.denormalize o y k); simplify_eq/=.
    by destruct (RobustStandardizer.normalize o x k); simplify_eq/=.
Qed.

Lemma roundtrip_back_exact_witness :
  construct example_sqrt MinMax [("x", example_x)] = Ok example_minmax /\
  finite example_x /\ wf (arr 2 [[0; 1]]%Z) /\ finite (arr 2 [[0; 1]]%Z) /\
  roundtrip_back MinMax example_minmax (arr 2 [[0; 1]]%Z) "x"
    = Ok (PArr (arr 2 [[0; 1]]%Z)).
Proof.
  assert (H1 : construct example_sqrt MinMax [("x", example_x)]
               = Ok example_minmax) by (vm_compute; reflexivity).
  assert (H2 : NoDup [("x", example_x)].*1)
    by (simpl; apply NoDup_singleton).
  assert (H3 : ("x", example_x) ∈ [("x", example_x)])
    by (apply list_elem_of_singleton; reflexivity).
  assert (H4 : finite example_x) by evaluate.
  assert (H5 : wf (arr 2 [[0; 1]]%Z)) by evaluate.
  assert (H6 : finite (arr 2 [[0; 1]]%Z)) by evaluate.
  repeat (split; [assumption|]).
  destruct (roundtrip_back_exact example_sqrt MinMax _ _ "x" example_x
              (arr 2 [[0; 1]]%Z) ltac:(discriminate) H1 H2 H3 H4 H5 H6 eq_refl)
    as (d & Hs & Hr).
  apply Hr. vm_compute in Hs. injection Hs as <-. evaluate.
Defined.

(** ** One key at a time *)

(** X8. What an instance holds and does for a key depends only on the
    array supplied under that key: two instances of one class built from
    different keyword arguments that share an item agree on its
    parameters, on its stored array and on [normalize] and [denormalize]
    for its key. *)
Theorem key_independent sqrt_fn V kwargs1 kwargs2 o1 o2 k a :
  construct sqrt_fn V kwargs1 = Ok o1 ->
  construct sqrt_fn V kwargs2 = Ok o2 ->
  NoDup kwargs1.*1 -> NoDup kwargs2.*1 ->
  (k, a) ∈ kwargs1 -> (k, a) ∈ kwargs2 ->
  _params o1 !! k = _params o2 !! k /\
  data o1 !! k = data o2 !! k /\
  forall x, normalize V o1 x k = normalize V o2 x k /\
            denormalize V o1 x k = denormalize V o2 x k.
Proof.
  intros H1 H2 Hnd1 Hnd2 Hin1 Hin2.
  destruct (decide (V = Identity)) as [->|HV].
  - injection H1 as <-. injection H2 as <-. done.
  - destruct (fit_of_is_Some sqrt_fn V HV) as [f Hf].
    destruct (construct_registered _ _ _ _ _ _ _ Hf H1 Hnd1 Hin1)
      as (p1 & d1 & Hfit1 & -> & ->).
    destruct (construct_registered _ _ _ _ _ _ _ Hf H2 Hnd2 Hin2)
      as (p2 & d2 & Hfit2 & -> & ->).
    rewrite Hfit1 in Hfit2. injection Hfit2 as <- <-.
    repeat split; try done.
    + destruct (registered_affine sqrt_fn V _ _ _ _ HV H1 Hnd1 Hin1)
        as (-> & _).
      destruct (registered_affine sqrt_fn V _ _ _ _ HV H2 Hnd2 Hin2)
        as (-> & _). done.
    + destruct (registered_affine sqrt_fn V _ _ _ _ HV H1 Hnd1 Hin1)
        as (_ & -> & _).
      destruct (registered_affine sqrt_fn V _ _ _ _ HV H2 Hnd2 Hin2)
        as (_ & -> & _). done.
Qed.

Lemma key_independent_witness :
  exists o2,
    construct example_sqrt Robust [("y", example_y); ("x", example_x)]
      = Ok o2 /\
    _params example_robust !! "x" = _params o2 !! "x" /\
    data example_robust !! "x" = data o2 !! "x".
Proof.
  assert (H1 : construct example_sqrt Robust [("x", example_x)]
               = Ok example_robust) by (vm_compute; reflexivity).
  destruct (construct example_sqrt Robust [("y", example_y); ("x", example_x)])
    as [o2|e] eqn:H2; [|vm_compute in H2; discriminate].
  assert (H3 : NoDup [("x", example_x)].*1)
    by (simpl; apply NoDup_singleton).
  assert (H4 : NoDup [("y", example_y); ("x", example_x)].*1) by evaluate.
  assert (H5 : ("x", example_x) ∈ [("x", example_x)])
    by (apply list_elem_of_singleton; reflexivity).
  assert (H6 : ("x", example_x) ∈ [("y", example_y); ("x", example_x)])
    by (apply list_elem_of_further, list_elem_of_here).
  exists o2. split; [reflexivity|].
  destruct (key_independent example_sqrt Robust _ _ _ _ "x" example_x
              H1 H2 H3 H4 H5 H6) as (Hp & Hd & _).
  split; [exact Hp | exact Hd].
Defined.

(** ** Entries of a registered key *)

Lemma get_shape a i j :
  wf a -> (is_Some (get a i j) <-> (i < length (rows a) /\ j < ncols a)%nat).
Proof.
  unfold wf, get. intros Hwf. split.
  - intros [x Hx]. destruct (rows a !! i) as [r|] eqn:E; simpl in *; [|done].
    pose proof (Forall_lookup_1 _ _ _ _ Hwf E) as Hr. simpl in Hr.
    apply lookup_lt_Some in E, Hx. lia.
  - intros [Hi Hj]. destruct (lookup_lt_is_Some_2 _ _ Hi) as [r E].
    rewrite E. simpl.
    pose proof (Forall_lookup_1 _ _ _ _ Hwf E) as Hr. simpl in Hr.
    apply lookup_lt_is_Some_2. lia.
Qed.

Lemma column_lookup_inv a i j x :
  wf a -> (j < ncols a)%nat -> column j a !! i = Some x ->
  get a i j = Some x.
Proof.
  unfold wf, get, column. intros H Hj. revert i.
  induction H as [|r rs Hr Hrs IH]; intros i Hx; [by destruct i|].
  destruct (lookup_lt_is_Some_2 r j) as [y Hy]; [lia|].
  simpl in Hx. rewrite Hy in Hx.
  destruct i as [|i]; simpl in *; [congruence|]. by apply IH.
Qed.

Lemma registered_entries sqrt_fn V kwargs o k a :
  V <> Identity ->
  construct sqrt_fn V kwargs = Ok o ->
  NoDup kwargs.*1 -> (k, a) ∈ kwargs ->
  let loc := location_of V a in
  let scl := scale_of sqrt_fn V a in
  forall x, wf x -> ncols x = ncols a ->
  exists y,
    normalize V o x k = Ok (PArr y) /\
    (x = a -> data o !! k = Some y) /\
    wf y /\ ncols y = ncols a /\ length (rows y) = length (rows x) /\
    forall i j xij m s,
      get x i j = Some xij -> loc !! j = Some m -> scl !! j = Some s ->
      get y i j = Some (fdiv (fsub xij m) s).
Proof.
  intros HV H Hnd Hin loc scl x Hwf Ex.
  destruct (registered_affine sqrt_fn V _ _ _ _ HV H Hnd Hin)
    as (Hn & _ & _ & d & Hd & Hda).
  fold loc scl in Hn, Hda.
  destruct (normalizes_by_intro
              (fun x => num ← barr fsub x loc; barr fdiv num scl)
              loc scl (ncols a)) with (x := x)
    as (y & Hy & Hwy & Ec & El & Hent); try done.
  - by apply location_of_length.
  - by apply scale_of_length.
  - exists y. rewrite Hn, Hy. repeat split; try done.
    intros ->. congruence.
Qed.

(** ** A constant column *)

Lemma is_least_unique (l : list Qc) m m' :
  is_least m l -> is_least m' l -> m = m'.
Proof.
  intros [Hin Hle] [Hin' Hle']. apply Qcle_antisym; auto.
Qed.

Lemma is_greatest_unique (l : list Qc) m m' :
  is_greatest m l -> is_greatest m' l -> m = m'.
Proof.
  intros [Hin Hle] [Hin' Hle']. apply Qcle_antisym; auto.
Qed.

(** A rational over a zero range: NaN for the value of the column, an
    infinity of the sign of the difference otherwise. *)
Lemma fdiv_zero_range (v m : Qc) :
  fdiv (fsub (Fin v) (Fin m)) (fsub (Fin m) (Fin m))
  = if decide (v = m) then NaN else if decide (m < v) then PInf else NInf.
Proof.
  simpl. rewrite decide_True by ring. unfold inf_times.
  destruct (v + - m ?= 0)%Qc eqn:E.
  - apply Qceq_alt in E. rewrite decide_True; [done|].
    rewrite <- (Qcplus_0_l m), <- E. ring.
  - apply Qclt_alt in E. apply Qclt_minus_iff in E.
    assert (Hlt : v < m).
    { apply Qclt_minus_iff. by replace (m + - v) with (0 + - (v + - m)) by ring. }
    rewrite decide_False; [|intros ->; by apply Qclt_not_eq in Hlt].
    rewrite decide_False; [done|]. by apply Qcle_ngt, Qclt_le_weak.
  - apply Qcgt_alt in E.
    assert (Hlt : m < v) by (by apply Qclt_minus_iff).
    rewrite decide_False; [|intros ->; by apply Qclt_not_eq in Hlt].
    by rewrite decide_True.
Qed.

Lemma MinMax_column_params a j (l : list Qc) lo hi :
  (j < ncols a)%nat -> column j a = Fin <$> l ->
  is_least lo l -> is_greatest hi l ->
  location_of MinMax a !! j = Some (Fin lo) /\
  scale_of example_sqrt MinMax a !! j = Some (fsub (Fin hi) (Fin lo)).
Proof.
  intros Hj Hc Hlo Hhi.
  assert (Hl : l <> []) by (destruct Hlo as [Hin _]; by destruct l; inv Hin).
  destruct (minmax_columns a j l Hj Hc Hl) as (lo' & hi' & Hmn & Hmx & Hlo' & Hhi').
  rewrite (is_least_unique _ _ _ Hlo Hlo'), (is_greatest_unique _ _ _ Hhi Hhi').
  simpl. split; [done|]. rewrite lookup_zip_with, Hmx. simpl. by rewrite Hmn.
Qed.

(** X9. A [MinMaxStandardizer] built from an array with a constant column
    of finite floats does not raise: every stored entry of that column is
    NaN, and [normalize] maps a finite float in that column of its argument
    to NaN when it equals the constant, to plus infinity when it is above
    and to minus infinity when it is below. *)
Theorem MinMax_constant_column kwargs o k a j (l : list Qc) m :
  MinMaxStandardizer.__init__ kwargs = Ok o ->
  NoDup kwargs.*1 -> (k, a) ∈ kwargs -> wf a ->
  (j < ncols a)%nat -> column j a = Fin <$> l ->
  is_least m l -> is_greatest m l ->
  (exists d, AbsStandardizer.__getitem__ o k = Ok d /\
             length (rows d) = length (rows a) /\
             forall i, (i < length (rows a))%nat -> get d i j = Some NaN) /\
  (forall x i v,
     wf x -> ncols x = ncols a -> get x i j = Some (Fin v) ->
     exists y,
       MinMaxStandardizer.normalize o x k = Ok y /\
       get y i j = Some (if decide (v = m) then NaN
                         else if decide (m < v) then PInf else NInf)).
Proof.
  intros H Hnd Hin Hwf Hj Hc Hlo Hhi.
  destruct (MinMax_column_params a j l m m Hj Hc Hlo Hhi) as [Hloc Hscl].
  pose proof (registered_entries example_sqrt MinMax _ _ _ _
                ltac:(discriminate) H Hnd Hin) as Hent.
  cbv zeta in Hent.
  assert (Hnorm : forall x i v,
    wf x -> ncols x = ncols a -> get x i j = Some (Fin v) ->
    exists y,
      MinMaxStandardizer.normalize o x k = Ok y /\
      (x = a -> data o !! k = Some y) /\
      length (rows y) = length (rows x) /\
      get y i j = Some (if decide (v = m) then NaN
                        else if decide (m < v) then PInf else NInf)).
  { intros x i v Hwx Ex Hx.
    destruct (Hent x Hwx Ex) as (y & Hy & Hd & _ & _ & El & He).
    exists y. simpl in Hy.
    destruct (MinMaxStandardizer.normalize o x k); simplify_eq/=.
    repeat split; try done.
    rewrite <- fdiv_zero_range. by apply He. }
  split; [|intros x i v Hwx Ex Hx;
           destruct (Hnorm x i v Hwx Ex Hx) as (y & ? & _ & _ & ?); eauto].
  assert (Hrows : (0 < length (rows a))%nat).
  { destruct Hlo as [Hm _].
    apply (list_elem_of_fmap_2 Fin) in Hm. rewrite <- Hc in Hm.
    apply list_elem_of_lookup_1 in Hm as [i Hi].
    apply column_lookup_inv in Hi; [|done..].
    destruct (proj1 (get_shape a i j Hwf)) as [? _]; [eauto|lia]. }
  assert (Hall : forall i, (i < length (rows a))%nat ->
                           get a i j = Some (Fin m)).
  { intros i Hi. destruct (proj2 (get_shape a i j Hwf)) as [x Hx]; [done|].
    pose proof (column_lookup _ _ _ _ Hwf Hx) as Hcx. rewrite Hc in Hcx.
    apply list_lookup_fmap_Some in Hcx as (v & -> & Hv).
    apply list_elem_of_lookup_2 in Hv.
    rewrite Hx. do 2 f_equal. apply Qcle_antisym.
    - by apply Hhi.
    - by apply Hlo. }
  destruct (Hnorm a 0%nat m Hwf eq_refl (Hall 0%nat Hrows))
    as (d & _ & Hd & El & _).
  exists d. split.
  { unfold AbsStandardizer.__getitem__. apply subscript_ok. by apply Hd. }
  split; [done|]. intros i Hi.
  destruct (Hnorm a i m Hwf eq_refl (Hall i Hi)) as (d' & Hd' & Hdd & _ & Hg).
  rewrite decide_True in Hg by done.
  assert (d' = d) as -> by (specialize (Hd eq_refl); specialize (Hdd eq_refl);
                            congruence).
  done.
Qed.

Lemma MinMax_constant_column_witness :
  MinMaxStandardizer.__init__ [("c", example_flat)] = Ok example_degenerate /\
  wf example_flat /\
  column 0 example_flat = Fin <$> [Qc_of_Z 1; Qc_of_Z 1] /\
  exists d, AbsStandardizer.__getitem__ example_degenerate "c" = Ok d /\
            get d 0 0 = Some NaN /\ get d 1 0 = Some NaN.
Proof.
  assert (H1 : MinMaxStandardizer.__init__ [("c", example_flat)]
               = Ok example_degenerate) by (vm_compute; reflexivity).
  assert (H2 : NoDup [("c", example_flat)].*1)
    by (simpl; apply NoDup_singleton).
  assert (H3 : ("c", example_flat) ∈ [("c", example_flat)])
    by (apply list_elem_of_singleton; reflexivity).
  assert (H4 : wf example_flat) by evaluate.
  assert (H5 : column 0 example_flat = Fin <$> [Qc_of_Z 1; Qc_of_Z 1])
    by reflexivity.
  assert (H6 : is_least (Qc_of_Z 1) [Qc_of_Z 1; Qc_of_Z 1]).
  { split; [apply list_elem_of_here|].
    intros x Hx. apply elem_of_cons in Hx as [->|Hx]; [done|].
    apply list_elem_of_singleton in Hx as ->. done. }
  assert (H7 : is_greatest (Qc_of_Z 1) [Qc_of_Z 1; Qc_of_Z 1]).
  { split; [apply list_elem_of_here|].
    intros x Hx. apply elem_of_cons in Hx as [->|Hx]; [done|].
    apply list_elem_of_singleton in Hx as ->. done. }
  repeat (split; [assumption|]).
  destruct (MinMax_constant_column _ _ "c" example_flat 0%nat _ _
              H1 H2 H3 H4 ltac:(simpl; lia) H5 H6 H7)
    as [(d & Hd & _ & Hg) _].
  exists d. split; [exact Hd|].
  split; apply Hg; simpl; lia.
Defined.

(** ** The ends of the MinMax range *)

(** X10. For a [MinMaxStandardizer] and a column of rationals whose
    greatest entry is strictly above its least entry, a row holding the
    least entry is stored as 0 and a row holding the greatest entry is
    stored as 1. *)
Theorem MinMax_bounds_attained kwargs o k a j (l : list Qc) lo hi :
  MinMaxStandardizer.__init__ kwargs = Ok o ->
  NoDup kwargs.*1 -> (k, a) ∈ kwargs -> wf a ->
  (j < ncols a)%nat -> column j a = Fin <$> l ->
  is_least lo l -> is_greatest hi l -> lo < hi ->
  exists d i0 i1,
    AbsStandardizer.__getitem__ o k = Ok d /\
    get a i0 j = Some (Fin lo) /\ get d i0 j = Some (Fin 0) /\
    get a i1 j = Some (Fin hi) /\ get d i1 j = Some (Fin 1).
Proof.
  intros H Hnd Hin Hwf Hj Hc Hlo Hhi Hlt.
  destruct (MinMax_column_params a j l lo hi Hj Hc Hlo Hhi) as [Hloc Hscl].
  destruct (registered_entries example_sqrt MinMax _ _ _ _
              ltac:(discriminate) H Hnd Hin a Hwf eq_refl)
    as (d & _ & Hd & _ & _ & _ & Hent).
  assert (Hrow : forall v, v ∈ l -> exists i, get a i j = Some (Fin v)).
  { intros v Hv. apply (list_elem_of_fmap_2 Fin) in Hv. rewrite <- Hc in Hv.
    apply list_elem_of_lookup_1 in Hv as [i Hi].
    exists i. by apply column_lookup_inv. }
  destruct (Hrow lo (proj1 Hlo)) as [i0 H0].
  destruct (Hrow hi (proj1 Hhi)) as [i1 H1].
  pose proof (Qcminus_pos _ _ Hlt) as Hpos.
  assert (Hne : hi - lo <> 0).
  { intros E. rewrite E in Hpos. by apply Qclt_not_eq in Hpos. }
  exists d, i0, i1. split.
  { unfold AbsStandardizer.__getitem__. apply subscript_ok. by apply Hd. }
  split; [done|]. split; [|split; [done|]].
  - rewrite (Hent _ _ _ _ _ H0 Hloc Hscl).
    change (fsub (Fin hi) (Fin lo)) with (Fin (hi - lo)).
    change (fsub (Fin lo) (Fin lo)) with (Fin (lo - lo)).
    rewrite fdiv_Fin by done. do 2 f_equal. field. done.
  - rewrite (Hent _ _ _ _ _ H1 Hloc Hscl).
    change (fsub (Fin hi) (Fin lo)) with (Fin (hi - lo)).
    rewrite fdiv_Fin by done. do 2 f_equal. field. done.
Qed.

Lemma MinMax_bounds_attained_witness :
  MinMaxStandardizer.__init__ [("x", example_x)] = Ok example_minmax /\
  wf example_x /\
  exists d i0 i1,
    AbsStandardizer.__getitem__ example_minmax "x" = Ok d /\
    get example_x i0 0 = Some (q 1) /\ get d i0 0 = Some (Fin 0) /\
    get example_x i1 0 = Some (q 5) /\ get d i1 0 = Some (Fin 1).
Proof.
  assert (H1 : MinMaxStandardizer.__init__ [("x", example_x)]
               = Ok example_minmax) by (vm_compute; reflexivity).
  assert (H2 : NoDup [("x", example_x)].*1)
    by (simpl; apply NoDup_singleton).
  assert (H3 : ("x", example_x) ∈ [("x", example_x)])
    by (apply list_elem_of_singleton; reflexivity).
  assert (H4 : wf example_x) by evaluate.
  assert (H5 : column 0 example_x
               = Fin <$> [Qc_of_Z 1; Qc_of_Z 3; Qc_of_Z 5]) by reflexivity.
  assert (H6 : is_least (Qc_of_Z 1) [Qc_of_Z 1; Qc_of_Z 3; Qc_of_Z 5]).
  { split; [apply list_elem_of_here|]. intros x Hx.
    repeat (apply elem_of_cons in Hx as [->|Hx]; [evaluate|]).
    by apply elem_of_nil in Hx. }
  assert (H7 : is_greatest (Qc_of_Z 5) [Qc_of_Z 1; Qc_of_Z 3; Qc_of_Z 5]).
  { split; [do 2 apply list_elem_of_further; apply list_elem_of_here|].
    intros x Hx.
    repeat (apply elem_of_cons in Hx as [->|Hx]; [evaluate|]).
    by apply elem_of_nil in Hx. }
  assert (H8 : Qc_of_Z 1 < Qc_of_Z 5) by evaluate.
  split; [exact H1|]. split; [exact H4|].
  exact (MinMax_bounds_attained _ _ "x" example_x 0%nat _ _ _
           H1 H2 H3 H4 ltac:(simpl; lia) H5 H6 H7 H8).
Defined.

(** ** NaN in the registered data *)

Lemma foldl_nan (f : fnum -> fnum -> fnum) (c : vec) :
  (forall x, f NaN x = NaN) -> foldl f NaN c = NaN.
Proof. intros Hf. induction c as [|x c IH]; simpl; [done|]. by rewrite Hf. Qed.

Lemma foldl_absorbs_nan (f : fnum -> fnum -> fnum) (c : vec) :
  (forall x, f NaN x = NaN) -> (forall x, f x NaN = NaN) ->
  NaN ∈ c -> forall acc, foldl f acc c = NaN.
Proof.
  intros Hl Hr. induction c as [|x c IH]; intros Hin acc;
    [by apply elem_of_nil in Hin|].
  simpl. apply elem_of_cons in Hin as [<-|Hin].
  - rewrite Hr. by apply foldl_nan.
  - by apply IH.
Qed.

Lemma fminimum_nan_l x : fminimum NaN x = NaN.
Proof. done. Qed.
Lemma fminimum_nan_r x : fminimum x NaN = NaN.
Proof. by destruct x. Qed.
Lemma fmaximum_nan_l x : fmaximum NaN x = NaN.
Proof. done. Qed.
Lemma fmaximum_nan_r x : fmaximum x NaN = NaN.
Proof. by destruct x. Qed.
Lemma fadd_nan_l x : fadd NaN x = NaN.
Proof. done. Qed.
Lemma fadd_nan_r x : fadd x NaN = NaN.
Proof. by destruct x. Qed.
Lemma fdiv_nan_r x : fdiv x NaN = NaN.
Proof. by destruct x. Qed.

Lemma reduce1_nan (f : fnum -> fnum -> fnum) (c : vec) :
  (forall x, f NaN x = NaN) -> (forall x, f x NaN = NaN) ->
  NaN ∈ c -> reduce1 f c = NaN.
Proof.
  intros Hl Hr Hin. destruct c as [|x c]; [by apply elem_of_nil in Hin|].
  simpl. apply elem_of_cons in Hin as [<-|Hin].
  - by apply foldl_nan.
  - by apply foldl_absorbs_nan.
Qed.

Lemma fsum_nan (c : vec) : NaN ∈ c -> fsum c = NaN.
Proof.
  intros Hin. unfold fsum.
  by apply foldl_absorbs_nan; auto using fadd_nan_l, fadd_nan_r.
Qed.

Lemma std1_nan sqrt_fn (c : vec) : NaN ∈ c -> std1 sqrt_fn c = NaN.
Proof.
  intros Hin. unfold std1, var1, mean1.
  rewrite (fsum_nan c Hin). simpl.
  rewrite fsum_nan; [done|].
  apply list_elem_of_fmap. exists NaN. split; [done|].
  apply list_elem_of_fmap. exists NaN. by split.
Qed.

Lemma quantile1_nan p (c : vec) : NaN ∈ c -> quantile1 p c = NaN.
Proof.
  intros Hin. unfold quantile1, has_nan. by rewrite bool_decide_eq_true_2.
Qed.

Lemma scale_of_nan sqrt_fn V a j :
  V <> Identity -> (j < ncols a)%nat -> NaN ∈ column j a ->
  scale_of sqrt_fn V a !! j = Some NaN.
Proof.
  intros HV Hj Hin. destruct V; [| | |done]; simpl.
  - rewrite lookup_zip_with, !reduce_columns_lookup by done. simpl.
    rewrite !reduce1_nan;
      auto using fminimum_nan_l, fminimum_nan_r, fmaximum_nan_l,
        fmaximum_nan_r.
  - unfold astd. rewrite reduce_columns_lookup by done.
    by rewrite std1_nan.
  - rewrite lookup_zip_with, !reduce_columns_lookup by done. simpl.
    by rewrite !quantile1_nan.
Qed.

(** X11. For a fitting class, one NaN in a column of the registered array
    makes the scale of that column NaN, and [normalize] then returns NaN
    for every entry of that column of any array of the registered column
    count. *)
Theorem nan_poisons_column sqrt_fn V kwargs o k a j :
  V <> Identity ->
  construct sqrt_fn V kwargs = Ok o ->
  NoDup kwargs.*1 -> (k, a) ∈ kwargs ->
  (j < ncols a)%nat -> NaN ∈ column j a ->
  (exists d, scale V o k = Ok d /\ d !! j = Some NaN) /\
  forall x, wf x -> ncols x = ncols a ->
  exists y, normalize V o x k = Ok (PArr y) /\
            length (rows y) = length (rows x) /\
            forall i, (i < length (rows x))%nat -> get y i j = Some NaN.
Proof.
  intros HV H Hnd Hin Hj Hnan.
  pose proof (scale_of_nan sqrt_fn V a j HV Hj Hnan) as Hs.
  split.
  - destruct (registered_affine sqrt_fn V _ _ _ _ HV H Hnd Hin)
      as (_ & _ & Hsc & _). eauto.
  - intros x Hwf Ex.
    destruct (registered_entries sqrt_fn V _ _ _ _ HV H Hnd Hin x Hwf Ex)
      as (y & Hy & _ & _ & _ & El & Hent).
    exists y. repeat split; try done. intros i Hi.
    destruct (proj2 (get_shape x i j Hwf)) as [xij Hx]; [split; [done|lia]|].
    destruct (lookup_lt_is_Some_2 (location_of V a) j) as [m Hm].
    { by rewrite location_of_length. }
    rewrite (Hent _ _ _ _ _ Hx Hm Hs). by rewrite fdiv_nan_r.
Qed.

Lemma nan_poisons_column_witness :
  construct example_sqrt Normal [("n", example_nan)] = Ok example_poisoned /\
  (NaN ∈ column 0 example_nan) /\
  exists y, normalize Normal example_poisoned (arr 1 [[7]]%Z) "n"
              = Ok (PArr y) /\
            get y 0 0 = Some NaN.
Proof.
  assert (H1 : construct example_sqrt Normal [("n", example_nan)]
               = Ok example_poisoned) by (vm_compute; reflexivity).
  assert (H2 : NoDup [("n", example_nan)].*1)
    by (simpl; apply NoDup_singleton).
  assert (H3 : ("n", example_nan) ∈ [("n", example_nan)])
    by (apply list_elem_of_singleton; reflexivity).
  assert (H4 : NaN ∈ column 0 example_nan)
    by (apply list_elem_of_further, list_elem_of_here).
  assert (H5 : wf (arr 1 [[7]]%Z)) by evaluate.
  split; [exact H1|]. split; [exact H4|].
  destruct (nan_poisons_column example_sqrt Normal _ _ "n" example_nan 0%nat
              ltac:(discriminate) H1 H2 H3 ltac:(simpl; lia) H4)
    as [_ Hn].
  destruct (Hn (arr 1 [[7]]%Z) H5 eq_refl) as (y & Hy & _ & Hg).
  exists y. split; [exact Hy|]. apply Hg. simpl. lia.
Defined.

(** ** The columns of a stored array *)

Lemma column_rowwise op a (v : vec) j vj :
  wf a -> v !! j = Some vj ->
  column j (rowwise op a v) = (fun x => op x vj) <$> column j a.
Proof.
  unfold wf, column, rowwise. simpl. intros Hwf Hv.
  induction Hwf as [|r rs Hr _ IH]; simpl; [done|].
  rewrite lookup_zip_with, Hv.
  destruct (r !! j) as [x|]; simpl; [|exact IH]. f_equal. exact IH.
Qed.

(** ** Order of the quartiles *)

Lemma quantile_spec_interp p (s : list Qc) :
  quantile_spec p s = interp s (Qc_of_Z (Z.of_nat (length s - 1)) * p).
Proof. reflexivity. Qed.

Lemma Qfloor_nonneg (h : Qc) : 0 <= h -> (0 <= Qfloor h)%Z.
Proof.
  intros H0. change 0%Z with (Qfloor (inject_Z 0)).
  apply Qfloor_resp_le. exact H0.
Qed.

Lemma floor_nat_le (h : Qc) :
  0 <= h -> Qc_of_Z (Z.of_nat (Z.to_nat (Qfloor h))) <= h.
Proof.
  intros H0. rewrite Z2Nat.id by (by apply Qfloor_nonneg).
  exact (Qfloor_le h).
Qed.

Lemma floor_nat_lt (h : Qc) :
  0 <= h -> h < Qc_of_Z (Z.of_nat (Z.to_nat (Qfloor h))) + 1.
Proof.
  intros H0. rewrite Z2Nat.id by (by apply Qfloor_nonneg).
  rewrite <- Z2Qc_inj_1, <- Z2Qc_inj_add. exact (Qlt_floor h).
Qed.

Lemma floor_nat_mono (h h' : Qc) :
  h <= h' -> (Z.to_nat (Qfloor h) <= Z.to_nat (Qfloor h'))%nat.
Proof.
  intros H. pose proof (Qfloor_resp_le h h' H). lia.
Qed.

Lemma floor_nat_bound (h : Qc) (m : nat) :
  h <= Qc_of_Z (Z.of_nat m) -> (Z.to_nat (Qfloor h) <= m)%nat.
Proof.
  intros H. pose proof (Qfloor_resp_le h (inject_Z (Z.of_nat m)) H) as Hf.
  rewrite Qfloor_Z in Hf. lia.
Qed.

Lemma floor_nat_unique (h : Qc) (k : nat) :
  Qc_of_Z (Z.of_nat k) <= h -> h < Qc_of_Z (Z.of_nat k) + 1 ->
  Z.to_nat (Qfloor h) = k.
Proof.
  intros H1 H2. rewrite <- Z2Qc_inj_1, <- Z2Qc_inj_add in H2.
  assert (Ha : (Qfloor h < Z.of_nat k + 1)%Z).
  { rewrite Zlt_Qlt. eapply Qle_lt_trans; [apply Qfloor_le|]. exact H2. }
  assert (Hb : (Z.of_nat k < Qfloor h + 1)%Z).
  { rewrite Zlt_Qlt. eapply Qle_lt_trans; [exact H1|]. apply Qlt_floor. }
  lia.
Qed.

Lemma nth_sorted (s : list Qc) :
  Sorted Qcle s ->
  forall i j, (i <= j)%nat -> (j < length s)%nat -> nth i s 0 <= nth j s 0.
Proof.
  intros Hs%(Sorted_StronglySorted _).
  induction Hs as [|x s Hs IH Hx]; intros i j Hij Hj; simpl in Hj; [lia|].
  destruct i as [|i], j as [|j]; simpl; try lia.
  - reflexivity.
  - apply (proj1 (Forall_nth _ 0 s) Hx). lia.
  - apply IH; lia.
Qed.

Lemma interp_between (s : list Qc) (h : Qc) :
  Sorted Qcle s -> 0 <= h ->
  let i := Z.to_nat (Qfloor h) in
  (i < length s)%nat ->
  nth i s 0 <= interp s h /\ interp s h <= nth (i + 1) s (nth i s 0).
Proof.
  intros Hs H0 i Hi. unfold interp. fold i.
  set (below := nth i s 0). set (above := nth (i + 1) s below).
  set (t := h - Qc_of_Z (Z.of_nat i)).
  assert (Ht0 : 0 <= t).
  { unfold t. by apply Qcminus_nonneg, floor_nat_le. }
  assert (Ht1 : 0 <= 1 - t).
  { replace (1 - t) with (Qc_of_Z (Z.of_nat i) + 1 - h) by (unfold t; ring).
    by apply Qcminus_nonneg, Qclt_le_weak, floor_nat_lt. }
  assert (Hd : 0 <= above - below).
  { apply Qcminus_nonneg. unfold above.
    destruct (decide (i + 1 < length s)%nat).
    - rewrite (nth_indep s below 0) by done. apply nth_sorted; [done|lia|done].
    - rewrite nth_overflow by lia. reflexivity. }
  split; apply (proj2 (Qcle_minus_iff _ _)).
  - replace (below + t * (above - below) + - below) with (t * (above - below))
      by ring.
    by apply Qcmult_nonneg_nonneg.
  - replace (above + - (below + t * (above - below)))
      with ((1 - t) * (above - below)) by ring.
    by apply Qcmult_nonneg_nonneg.
Qed.

(** The interpolated value does not decrease with the position. *)
Lemma interp_mono (s : list Qc) (h h' : Qc) :
  Sorted Qcle s -> s <> [] ->
  0 <= h -> h <= h' -> h' <= Qc_of_Z (Z.of_nat (length s - 1)) ->
  interp s h <= interp s h'.
Proof.
  intros Hs Hne H0 Hle Hmax.
  assert (H0' : 0 <= h') by (by etrans).
  assert (Hn : (0 < length s)%nat) by (destruct s; [done|simpl; lia]).
  pose proof (floor_nat_mono h h' Hle) as Hii.
  pose proof (floor_nat_bound h' _ Hmax) as Hi'.
  set (i := Z.to_nat (Qfloor h)) in *. set (i' := Z.to_nat (Qfloor h')) in *.
  destruct (decide (i = i')) as [E|Hne'].
  - unfold interp. fold i i'. rewrite <- E.
    set (below := nth i s 0). set (above := nth (i + 1) s below).
    apply (proj2 (Qcle_minus_iff _ _)).
    replace (below + (h' - Qc_of_Z (Z.of_nat i)) * (above - below)
             + - (below + (h - Qc_of_Z (Z.of_nat i)) * (above - below)))
      with ((h' - h) * (above - below)) by ring.
    apply Qcmult_nonneg_nonneg; [by apply Qcminus_nonneg|].
    destruct (interp_between s h Hs H0) as [Hb Ha]; [fold i; lia|].
    fold i in Hb, Ha. fold below above in Hb, Ha.
    apply Qcminus_nonneg. by etrans.
  - destruct (interp_between s h Hs H0) as [_ Ha]; [fold i; lia|].
    destruct (interp_between s h' Hs H0') as [Hb _]; [fold i'; lia|].
    fold i in Ha. fold i' in Hb.
    etrans; [exact Ha|]. etrans; [|exact Hb].
    rewrite (nth_indep s (nth i s 0) 0) by lia.
    apply nth_sorted; [done|lia|lia].
Qed.

Lemma quantile_spec_mono (s : list Qc) (p p' : Qc) :
  Sorted Qcle s -> s <> [] -> 0 <= p -> p <= p' -> p' <= 1 ->
  quantile_spec p s <= quantile_spec p' s.
Proof.
  intros Hs Hne H0 Hle H1. rewrite !quantile_spec_interp.
  assert (HN : 0 <= Qc_of_Z (Z.of_nat (length s - 1))).
  { pose proof (proj1 (Z2Qc_inj_le 0 (Z.of_nat (length s - 1)))) as H.
    rewrite Z2Qc_inj_0 in H. apply H. lia. }
  apply interp_mono; try done.
  - by apply Qcmult_nonneg_nonneg.
  - by apply Qcmult_le_mono_nonneg_l.
  - rewrite <- (Qcmult_1_r (Qc_of_Z (Z.of_nat (length s - 1)))) at 2.
    by apply Qcmult_le_mono_nonneg_l.
Qed.

(** The median is the quantile at one half. *)
Lemma median_spec_quantile (s : list Qc) :
  s <> [] -> median_spec s = quantile_spec (Q2Qc (1 # 2)) s.
Proof.
  intros Hne. assert (Hn : (0 < length s)%nat) by (destruct s; [done|simpl; lia]).
  rewrite quantile_spec_interp. unfold median_spec, interp.
  set (h := Qc_of_Z (Z.of_nat (length s - 1)) * Q2Qc (1 # 2)).
  destruct (Nat.even (length s)) eqn:He.
  - apply Nat.even_spec in He as [m Hm].
    assert (Hh : h = Qc_of_Z (Z.of_nat (m - 1)) + Q2Qc (1 # 2)).
    { unfold h. rewrite Hm.
      replace (Z.of_nat (2 * m - 1)) with (2 * Z.of_nat (m - 1) + 1)%Z by lia.
      rewrite Z2Qc_inj_add, Z2Qc_inj_mul, Z2Qc_inj_2, Z2Qc_inj_1.
      apply Qc_is_canon. simpl. rewrite !Qred_correct. field. }
    assert (Hi : Z.to_nat (Qfloor h) = (m - 1)%nat).
    { apply floor_nat_unique; rewrite Hh.
      - rewrite <- (Qcplus_0_r (Qc_of_Z _)) at 1.
        by apply Qcplus_le_mono_l.
      - by apply Qcplus_lt_mono_l. }
    rewrite Hi, Hh, Hm.
    replace (2 * m / 2)%nat with m by (by rewrite Nat.mul_comm, Nat.div_mul).
    replace (m - 1 + 1)%nat with m by lia.
    rewrite (nth_indep s (nth (m - 1) s 0) 0) by lia.
    apply Qc_is_canon. simpl. rewrite !Qred_correct. field.
  - assert (Ho : Nat.odd (length s) = true)
      by (by rewrite <- Nat.negb_even, He).
    apply Nat.odd_spec in Ho as [m Hm].
    assert (Hh : h = Qc_of_Z (Z.of_nat m)).
    { unfold h. rewrite Hm.
      replace (Z.of_nat (2 * m + 1 - 1)) with (2 * Z.of_nat m)%Z by lia.
      rewrite Z2Qc_inj_mul, Z2Qc_inj_2.
      apply Qc_is_canon. simpl. rewrite !Qred_correct. field. }
    assert (Hi : Z.to_nat (Qfloor h) = m).
    { apply floor_nat_unique; rewrite Hh; [done|].
      rewrite <- (Qcplus_0_r (Qc_of_Z _)) at 1.
      by apply Qcplus_lt_mono_l. }
    rewrite Hi, Hh, Hm.
    replace ((2 * m + 1) / 2)%nat with m
      by (by rewrite Nat.mul_comm, Nat.div_add_l, Nat.add_0_r).
    ring.
Qed.

Lemma Robust_column_params a j (l s : list Qc) :
  (j < ncols a)%nat -> column j a = Fin <$> l -> l <> [] ->
  Sorted Qcle s -> s ≡ₚ l ->
  location_of Robust a !! j = Some (Fin (median_spec s)) /\
  scale_of example_sqrt Robust a !! j
    = Some (Fin (quantile_spec (Q2Qc (3 # 4)) s
                 - quantile_spec (Q2Qc (1 # 4)) s)) /\
  (quantile1 RobustStandardizer.quarter <$> columns a) !! j
    = Some (Fin (quantile_spec (Q2Qc (1 # 4)) s)) /\
  (quantile1 RobustStandardizer.three_quarters <$> columns a) !! j
    = Some (Fin (quantile_spec (Q2Qc (3 # 4)) s)).
Proof.
  intros Hj Hc Hl Hs Hp. simpl. unfold amedian.
  rewrite lookup_zip_with, !reduce_columns_lookup by done. simpl.
  rewrite Hc, (median1_Fin l s), !(quantile1_Fin _ l s); try done; evaluate.
Qed.

Lemma sorted_exists (l : list Qc) : exists s, Sorted Qcle s /\ s ≡ₚ l.
Proof.
  exists (merge_sort Qcle l). split.
  - apply Sorted_merge_sort, _.
  - apply merge_sort_Permutation.
Qed.

Lemma quartiles_ordered (s : list Qc) :
  Sorted Qcle s -> s <> [] ->
  quantile_spec (Q2Qc (1 # 4)) s <= median_spec s /\
  median_spec s <= quantile_spec (Q2Qc (3 # 4)) s.
Proof.
  intros Hs Hne. rewrite median_spec_quantile by done.
  split; apply quantile_spec_mono; try done; evaluate.
Qed.

(** X13. For a [RobustStandardizer] and a column of rationals of a
    registered array with rows, the stored parameters are ordered: the
    first quartile is at most the median and the median at most the third
    quartile, so the scale the class divides by is never negative. *)
Theorem Robust_quartiles_ordered kwargs o k a j (l : list Qc) :
  RobustStandardizer.__init__ kwargs = Ok o ->
  NoDup kwargs.*1 -> (k, a) ∈ kwargs -> wf a -> rows a <> [] ->
  (j < ncols a)%nat -> column j a = Fin <$> l ->
  exists (v1 vm v3 d : vec) (q1 med q3 : Qc),
    _params o !! k = Some {["q1" := v1; "median" := vm; "q3" := v3]} /\
    v1 !! j = Some (Fin q1) /\ vm !! j = Some (Fin med) /\
    v3 !! j = Some (Fin q3) /\
    q1 <= med /\ med <= q3 /\
    scale Robust o k = Ok d /\ d !! j = Some (Fin (q3 - q1)) /\
    0 <= q3 - q1.
Proof.
  intros H Hnd Hin Hwf Hrows Hj Hc.
  assert (Hl : l <> []) by (by eapply column_nonempty).
  destruct (sorted_exists l) as (s & Hs & Hp).
  assert (Hne : s <> []).
  { intros ->. apply Permutation_nil_l in Hp. done. }
  destruct (construct_registered example_sqrt Robust _ _ _ _ _
              eq_refl H Hnd Hin) as (p & d0 & Hfit & Hpar & _).
  apply Robust_fit_ok in Hfit as [_ ->].
  destruct (registered_affine example_sqrt Robust _ _ _ _
              ltac:(discriminate) H Hnd Hin) as (_ & _ & Hsc & _).
  destruct (Robust_column_params a j l s Hj Hc Hl Hs Hp)
    as (Hm & Hscl & H1 & H3).
  destruct (quartiles_ordered s Hs Hne) as [Hq1 Hq3].
  eexists _, _, _, _, _, _, _. repeat (split; [eassumption|]).
  apply Qcminus_nonneg. by etrans.
Qed.

Lemma Robust_quartiles_ordered_witness :
  RobustStandardizer.__init__ [("x", example_x)] = Ok example_robust /\
  wf example_x /\ rows example_x <> [] /\
  exists (d : vec) (q1 q3 : Qc),
    scale Robust example_robust "x" = Ok d /\
    d !! 0%nat = Some (Fin (q3 - q1)) /\ 0 <= q3 - q1.
Proof.
  assert (H1 : RobustStandardizer.__init__ [("x", example_x)]
               = Ok example_robust) by (vm_compute; reflexivity).
  assert (H2 : NoDup [("x", example_x)].*1)
    by (simpl; apply NoDup_singleton).
  assert (H3 : ("x", example_x) ∈ [("x", example_x)])
    by (apply list_elem_of_singleton; reflexivity).
  assert (H4 : wf example_x) by evaluate.
  assert (H5 : rows example_x <> []) by discriminate.
  assert (H6 : column 0 example_x
               = Fin <$> [Qc_of_Z 1; Qc_of_Z 3; Qc_of_Z 5]) by reflexivity.
  repeat (split; [assumption|]).
  destruct (Robust_quartiles_ordered _ _ "x" example_x 0%nat _
              H1 H2 H3 H4 H5 ltac:(simpl; lia) H6)
    as (v1 & vm & v3 & d & q1 & med & q3 & _ & _ & _ & _ & _ & _ & Hs & Hd & Hn).
  exists d, q1, q3. split; [exact Hs|]. split; [exact Hd | exact Hn].
Defined.

(** ** The stored array of a RobustStandardizer *)

Lemma nth_fmap_in (f : Qc -> Qc) (s : list Qc) i :
  (i < length s)%nat -> nth i (f <$> s) 0 = f (nth i s 0).
Proof.
  intros Hi. rewrite (nth_indep (f <$> s) 0 (f 0)) by (by rewrite length_fmap).
  apply map_nth.
Qed.

Lemma median_spec_affine (c σ : Qc) (s : list Qc) :
  s <> [] -> σ <> 0 ->
  median_spec ((fun x => (x - c) / σ) <$> s) = (median_spec s - c) / σ.
Proof.
  intros Hne Hσ.
  assert (Hn : (0 < length s)%nat) by (destruct s; [done|simpl; lia]).
  unfold median_spec. rewrite length_fmap.
  destruct (Nat.even (length s)) eqn:He.
  - destruct (even_half _ He Hn) as [E1 E2].
    rewrite !nth_fmap_in by lia. field. done.
  - rewrite nth_fmap_in by (apply Nat.div_lt; lia). done.
Qed.

(** X14. For a [RobustStandardizer] and a column of rationals of a
    registered array with rows, when the stored scale of the column is not
    zero the median of the stored normalized column is zero. *)
Theorem Robust_centered kwargs o k a j (l : list Qc) (d : vec) sc :
  RobustStandardizer.__init__ kwargs = Ok o ->
  NoDup kwargs.*1 -> (k, a) ∈ kwargs -> wf a -> rows a <> [] ->
  (j < ncols a)%nat -> column j a = Fin <$> l ->
  scale Robust o k = Ok d -> d !! j = Some sc -> is_nonzero sc ->
  exists y,
    AbsStandardizer.__getitem__ o k = Ok y /\
    length (column j y) = length (rows a) /\
    median1 (column j y) = Fin 0.
Proof.
  intros H Hnd Hin Hwf Hrows Hj Hc Hsc Hd Hnz.
  assert (Hl : l <> []) by (by eapply column_nonempty).
  destruct (sorted_exists l) as (s & Hs & Hp).
  assert (Hne : s <> []).
  { intros ->. apply Permutation_nil_l in Hp. done. }
  destruct (registered_affine example_sqrt Robust _ _ _ _
              ltac:(discriminate) H Hnd Hin) as (_ & _ & Hsc' & y & Hy & Hya).
  destruct (Robust_column_params a j l s Hj Hc Hl Hs Hp) as (Hm & Hscl & _).
  destruct (quartiles_ordered s Hs Hne) as [Hq1 Hq3].
  set (med := median_spec s) in *.
  set (σ := quantile_spec (Q2Qc (3 # 4)) s - quantile_spec (Q2Qc (1 # 4)) s)
    in *.
  assert (sc = Fin σ) as -> by congruence.
  simpl in Hnz.
  assert (Hpos : 0 < σ).
  { pose proof (Qcminus_nonneg _ _ (Qcle_trans _ _ _ Hq1 Hq3)) as Hge.
    fold σ in Hge. apply Qcle_lt_or_eq in Hge as [?|E]; [done|].
    by destruct Hnz. }
  pose proof (location_of_length Robust a ltac:(discriminate)) as El.
  pose proof (scale_of_length example_sqrt Robust a ltac:(discriminate)) as Es.
  rewrite (barr_same fsub a _ Hwf (eq_sym El)) in Hya. simpl in Hya.
  rewrite (barr_same fdiv) in Hya
    by (try apply rowwise_wf; try done; simpl; congruence).
  injection Hya as <-.
  exists (rowwise fdiv (rowwise fsub a (location_of Robust a))
            (scale_of example_sqrt Robust a)).
  split.
  { unfold AbsStandardizer.__getitem__. by apply subscript_ok. }
  set (f := fun x : Qc => (x - med) / σ).
  assert (Hcol : column j (rowwise fdiv (rowwise fsub a (location_of Robust a))
                             (scale_of example_sqrt Robust a))
                 = Fin <$> (f <$> l)).
  { rewrite (column_rowwise fdiv _ _ j _
               (rowwise_wf _ _ _ Hwf (eq_sym El)) Hscl).
    rewrite (column_rowwise fsub _ _ j _ Hwf Hm), Hc.
    rewrite <- !list_fmap_compose.
    apply list_fmap_ext. intros i x _. simpl. by rewrite decide_False. }
  rewrite Hcol. split.
  { rewrite !length_fmap. apply (f_equal length) in Hc.
    rewrite length_fmap in Hc. by rewrite <- Hc, column_length. }
  rewrite (median1_Fin (f <$> l) (f <$> s)).
  - unfold f. rewrite median_spec_affine by done. fold med.
    f_equal. field. done.
  - by destruct l.
  - eapply Sorted_fmap; [|exact Hs]. intros x x' Hx. unfold f, Qcdiv.
    apply Qcmult_le_mono_nonneg_r; [by apply Qclt_le_weak, Qcinv_pos|].
    unfold Qcminus. by apply Qcplus_le_mono_r.
  - by rewrite Hp.
Qed.

Lemma Robust_centered_witness :
  RobustStandardizer.__init__ [("x", example_x)] = Ok example_robust /\
  wf example_x /\ rows example_x <> [] /\
  scale Robust example_robust "x" = Ok [q 2; q 2] /\
  exists y,
    AbsStandardizer.__getitem__ example_robust "x" = Ok y /\
    median1 (column 1 y) = Fin 0.
Proof.
  assert (H1 : RobustStandardizer.__init__ [("x", example_x)]
               = Ok example_robust) by (vm_compute; reflexivity).
  assert (H2 : NoDup [("x", example_x)].*1)
    by (simpl; apply NoDup_singleton).
  assert (H3 : ("x", example_x) ∈ [("x", example_x)])
    by (apply list_elem_of_singleton; reflexivity).
  assert (H4 : wf example_x) by evaluate.
  assert (H5 : rows example_x <> []) by discriminate.
  assert (H6 : column 1 example_x
               = Fin <$> [Qc_of_Z 2; Qc_of_Z 4; Qc_of_Z 6]) by reflexivity.
  assert (H7 : scale Robust example_robust "x" = Ok [q 2; q 2]) by evaluate.
  repeat (split; [assumption|]).
  destruct (Robust_centered _ _ "x" example_x 1%nat _ _ (q 2)
              H1 H2 H3 H4 H5 ltac:(simpl; lia) H6 H7 eq_refl
              ltac:(simpl; evaluate))
    as (y & Hy & _ & Hm).
  exists y. split; [exact Hy | exact Hm].
Defined.

(** ** Order within a column *)





(** ** A dataset of one row *)

Lemma quantile_spec_one p (x : Qc) : quantile_spec p [x] = x.
Proof.
  unfold quantile_spec. simpl length.
  change (Z.of_nat (1 - 1)) with 0%Z. rewrite Z2Qc_inj_0, Qcmult_0_l.
  change (Z.to_nat (Qfloor (Q2Qc 0))) with 0%nat. simpl. ring.
Qed.

Lemma one_row_params V a (r : list Qc) j x :
  (V = MinMax \/ V = Robust) ->
  rows a = [Fin <$> r] -> wf a -> r !! j = Some x ->
  location_of V a !! j = Some (Fin x) /\
  scale_of example_sqrt V a !! j = Some (fsub (Fin x) (Fin x)).
Proof.
  intros HV Hr Hwf Hx.
  assert (Hj : (j < ncols a)%nat).
  { unfold wf in Hwf. rewrite Hr in Hwf. apply Forall_cons in Hwf as [E _].
    simpl in E. rewrite length_fmap in E. apply lookup_lt_Some in Hx. lia. }
  assert (Hc : column j a = Fin <$> [x]).
  { unfold column. rewrite Hr. simpl. by rewrite list_lookup_fmap, Hx. }
  destruct HV as [-> | ->].
  - apply (MinMax_column_params a j [x] x x Hj Hc).
    + split; [apply list_elem_of_here|].
      by intros ? ->%list_elem_of_singleton.
    + split; [apply list_elem_of_here|].
      by intros ? ->%list_elem_of_singleton.
  - destruct (Robust_column_params a j [x] [x] Hj Hc) as (Hm & Hs & _);
      try done; [repeat constructor|].
    unfold median_spec in Hm. simpl in Hm.
    rewrite !quantile_spec_one in Hs. done.
Qed.

(** X16. A [MinMaxStandardizer] or [RobustStandardizer] built from an
    array of one row of rationals does not raise, and every entry of the
    stored normalized array is NaN. *)
Theorem one_row_dataset sqrt_fn V kwargs o k a (r : list Qc) :
  (V = MinMax \/ V = Robust) ->
  construct sqrt_fn V kwargs = Ok o ->
  NoDup kwargs.*1 -> (k, a) ∈ kwargs -> wf a -> rows a = [Fin <$> r] ->
  exists d,
    lookup V o k = Ok (PArr d) /\ ncols d = ncols a /\
    length (rows d) = 1%nat /\
    forall j, (j < ncols a)%nat -> get d 0 j = Some NaN.
Proof.
  intros HV H Hnd Hin Hwf Hr.
  assert (HV' : V <> Identity) by (destruct HV as [-> | ->]; discriminate).
  destruct (registered_entries sqrt_fn V _ _ _ _ HV' H Hnd Hin a Hwf eq_refl)
    as (d & _ & Hd & _ & Ec & El & Hent).
  exists d. split.
  { unfold lookup, AbsStandardizer.__getitem__.
    by rewrite (proj2 (subscript_ok _ _ _) (Hd eq_refl)). }
  split; [done|]. split; [by rewrite El, Hr|].
  intros j Hj.
  assert (Hlen : length r = ncols a).
  { unfold wf in Hwf. rewrite Hr in Hwf. apply Forall_cons in Hwf as [E _].
    simpl in E. by rewrite length_fmap in E. }
  destruct (lookup_lt_is_Some_2 r j) as [x Hx]; [lia|].
  destruct (one_row_params V a r j x HV Hr Hwf Hx) as [Hm Hs].
  assert (Hs' : scale_of sqrt_fn V a !! j = Some (fsub (Fin x) (Fin x)))
    by (destruct HV as [-> | ->]; exact Hs).
  assert (Hg : get a 0 j = Some (Fin x)).
  { unfold get. rewrite Hr. simpl. by rewrite list_lookup_fmap, Hx. }
  rewrite (Hent _ _ _ _ _ Hg Hm Hs'), fdiv_zero_range.
  by rewrite decide_True.
Qed.

Lemma one_row_dataset_witness :
  exists o d,
    construct example_sqrt Robust [("r", arr 2 [[4; 9]]%Z)] = Ok o /\
    lookup Robust o "r" = Ok (PArr d) /\
    get d 0 0 = Some NaN /\ get d 0 1 = Some NaN.
Proof.
  destruct (construct example_sqrt Robust [("r", arr 2 [[4; 9]]%Z)])
    as [o|e] eqn:H1; [|vm_compute in H1; discriminate].
  assert (H2 : NoDup [("r", arr 2 [[4; 9]]%Z)].*1)
    by (simpl; apply NoDup_singleton).
  assert (H3 : ("r", arr 2 [[4; 9]]%Z) ∈ [("r", arr 2 [[4; 9]]%Z)])
    by (apply list_elem_of_singleton; reflexivity).
  assert (H4 : wf (arr 2 [[4; 9]]%Z)) by evaluate.
  destruct (one_row_dataset example_sqrt Robust _ _ "r" (arr 2 [[4; 9]]%Z)
              [Qc_of_Z 4; Qc_of_Z 9] (or_intror eq_refl) H1 H2 H3 H4 eq_refl)
    as (d & Hd & _ & _ & Hg).
  exists o, d. split; [reflexivity|]. split; [exact Hd|].
  split; apply Hg; simpl; lia.
Defined.
